(** * Differential evolution (boost/math/optimization/differential_evolution.hpp)

    A shallow embedding of [differential_evolution] and of
    [validate_differential_evolution_parameters].

    Modelling choices:
    - [Real] values (coordinates, costs, F, CR, the target value) are IEEE-like
      values [flt]: NaN, the two infinities and finite values.  Finite values
      are exact rationals kept in lowest terms (no rounding); comparisons follow IEEE semantics,
      in particular every comparison with NaN is false.
    - The caller's uniform random bit generator is a stream of [N] outputs read
      from a position; [gen()] returns the next output.
    - The unbounded [do ... while] rejection loops run on a fuel bound; running
      out of fuel is reported as [Diverged].
    - The worker threads of each evaluation phase are interleaved by an
      explicit schedule: each event lets one worker run one whole loop
      iteration, or lets the caller set its cancellation flag.  After the
      schedule, the join runs the remaining iterations of every worker.
    - The informational [current_minimum_cost] hint is written by the workers
      and never read back by the algorithm; it is not modelled. *)

From Stdlib Require Import Bool List Arith Lia ZArith NArith QArith Permutation.
Import ListNotations.

Open Scope bool_scope.

(** ** IEEE-like values *)

Inductive flt : Type :=
| NaN : flt
| NInf : flt
| PInf : flt
| Fin : Q -> flt.

Arguments Fin _%_Q.

Definition isnan (x : flt) : bool :=
  match x with NaN => true | _ => false end.

Definition isfinite (x : flt) : bool :=
  match x with Fin _ => true | _ => false end.

Definition Qltb (x y : Q) : bool :=
  Z.ltb (Qnum x * QDen y) (Qnum y * QDen x).

(** [a < b]: false as soon as one operand is NaN. *)
Definition flt_lt (a b : flt) : bool :=
  match a, b with
  | NaN, _ | _, NaN => false
  | NInf, NInf => false
  | NInf, _ => true
  | _, NInf => false
  | PInf, _ => false
  | Fin _, PInf => true
  | Fin x, Fin y => Qltb x y
  end.

(** [a <= b]: false as soon as one operand is NaN. *)
Definition flt_le (a b : flt) : bool :=
  match a, b with
  | NaN, _ | _, NaN => false
  | _, _ => negb (flt_lt b a)
  end.

Definition flt_neg (a : flt) : flt :=
  match a with
  | NaN => NaN
  | NInf => PInf
  | PInf => NInf
  | Fin x => Fin (- x)
  end.

Definition flt_add (a b : flt) : flt :=
  match a, b with
  | NaN, _ | _, NaN => NaN
  | PInf, NInf | NInf, PInf => NaN
  | PInf, _ | _, PInf => PInf
  | NInf, _ | _, NInf => NInf
  | Fin x, Fin y => Fin (Qred (x + y))
  end.

Definition flt_sub (a b : flt) : flt := flt_add a (flt_neg b).

(** The sign of an infinite product [x * inf]. *)
Definition scale_inf (x : Q) (pos : bool) : flt :=
  if Qltb 0 x then (if pos then PInf else NInf)
  else if Qltb x 0 then (if pos then NInf else PInf)
  else NaN.

Definition flt_mul (a b : flt) : flt :=
  match a, b with
  | NaN, _ | _, NaN => NaN
  | PInf, PInf | NInf, NInf => PInf
  | PInf, NInf | NInf, PInf => NInf
  | Fin x, PInf | PInf, Fin x => scale_inf x true
  | Fin x, NInf | NInf, Fin x => scale_inf x false
  | Fin x, Fin y => Fin (Qred (x * y))
  end.

(** [std::clamp(v, lo, hi)]: [v < lo ? lo : (hi < v ? hi : v)]. *)
Definition clamp (v lo hi : flt) : flt :=
  if flt_lt v lo then lo else if flt_lt hi v then hi else v.

(** ** Containers *)

Definition candidate := list flt.

(** [v[i] = x]; out of range the list is left as it is. *)
Fixpoint replace_nth {A} (i : nat) (x : A) (l : list A) : list A :=
  match l, i with
  | [], _ => []
  | _ :: l', O => x :: l'
  | y :: l', S i' => y :: replace_nth i' x l'
  end.

(** [std::min_element]: the first position whose element no later element
    is strictly smaller than the running minimum. *)
Fixpoint min_element_from (l : list flt) (k best : nat) (bestv : flt) : nat :=
  match l with
  | [] => best
  | x :: l' =>
      if flt_lt x bestv then min_element_from l' (S k) k x
      else min_element_from l' (S k) best bestv
  end.

Definition min_element (l : list flt) : nat :=
  match l with
  | [] => 0
  | x :: l' => min_element_from l' 1 0 x
  end.

(** ** Parameters *)

Record de_params : Type := mk_params {
  lower_bounds : list flt;
  upper_bounds : list flt;
  mutation_factor : flt;
  crossover_probability : flt;
  NP : nat;
  max_generations : nat;
  initial_guess : option candidate;
  threads : nat
}.

Inductive config_error : Type :=
| BoundsError
| PopulationSizeError
| MutationFactorError
| GenerationsError
| InitialGuessError
| ThreadsError.

(** Modelled from the spec: [detail::validate_bounds] (not under src/).
    Section 4.1: malformed bounds are mismatched lengths or lower >= upper on
    some dimension. *)
Definition validate_bounds (lb ub : list flt) : option config_error :=
  if negb (Nat.eqb (length lb) (length ub)) then Some BoundsError
  else if existsb (fun '(l, u) => flt_le u l) (combine lb ub) then Some BoundsError
  else None.

(** Modelled from the spec: [detail::validate_initial_guess] (not under
    src/).  Section 4.1: the initial guess is rejected when its dimension or
    its bound containment is violated. *)
Definition validate_initial_guess (x lb ub : list flt) : option config_error :=
  if negb (Nat.eqb (length x) (length lb)) then Some InitialGuessError
  else if existsb (fun '(v, (l, u)) => negb (flt_le l v && flt_le v u))
                  (combine x (combine lb ub))
  then Some InitialGuessError
  else None.

(** [validate_differential_evolution_parameters]: the checks in source order;
    the first failing one throws. *)
Definition validate_differential_evolution_parameters (p : de_params)
  : option config_error :=
  match validate_bounds (lower_bounds p) (upper_bounds p) with
  | Some e => Some e
  | None =>
    if Nat.ltb (NP p) 4 then Some PopulationSizeError
    else
      let F := mutation_factor p in
      if isnan F || flt_le (Fin 1) F || flt_le F (Fin 0) then Some MutationFactorError
      else if Nat.ltb (max_generations p) 1 then Some GenerationsError
      else
        match match initial_guess p with
              | Some x => validate_initial_guess x (lower_bounds p) (upper_bounds p)
              | None => None
              end with
        | Some e => Some e
        | None => if Nat.eqb (threads p) 0 then Some ThreadsError else None
        end
  end.

(** ** The random generator and the generator-passing monad *)

Record urbg : Type := mk_urbg {
  stream : nat -> N;
  pos : nat
}.

(** A computation that consumes generator outputs; [None] means that a
    rejection loop ran out of fuel. *)
Definition RNG (A : Type) : Type := urbg -> option (A * urbg).

Definition ret {A} (a : A) : RNG A := fun g => Some (a, g).

Definition bind {A B} (m : RNG A) (k : A -> RNG B) : RNG B :=
  fun g => match m g with
           | None => None
           | Some (a, g') => k a g'
           end.

Notation "x <- m ;; k" := (bind m (fun x => k))
  (at level 61, m at next level, right associativity).

(** [gen()] *)
Definition gen_call : RNG N :=
  fun g => Some (stream g (pos g), mk_urbg (stream g) (S (pos g))).

(** [uniform_real_distribution<Real>(0, 1)(gen)], for a 32-bit engine whose
    canonical real is generated from one output: [d / 2^32]. *)
Definition unif01 : RNG flt :=
  d <- gen_call ;;
  ret (Fin (Qred (Qmake (Z.of_N (N.modulo d 4294967296)) 4294967296))).

(** [do { r = gen() % NP; } while (r is one of excl);] *)
Fixpoint draw_index (fuel NP : nat) (excl : list nat) : RNG nat :=
  match fuel with
  | O => fun _ => None
  | S fuel' =>
      x <- gen_call ;;
      let r := N.to_nat (N.modulo x (N.of_nat NP)) in
      if existsb (Nat.eqb r) excl then draw_index fuel' NP excl else ret r
  end.

(** ** Mutation and crossover (lines 162-188) *)

Section Trials.

Variable p : de_params.
Variable population : list candidate.

Definition dimension : nat := length (lower_bounds p).

Definition coord (k j : nat) : flt := nth j (nth k population []) NaN.

(** [population[r1][j] + F * (population[r2][j] - population[r3][j])] *)
Definition mutant (r1 r2 r3 j : nat) : flt :=
  flt_add (coord r1 j)
          (flt_mul (mutation_factor p) (flt_sub (coord r2 j) (coord r3 j))).

(** The inner [for (j ...)] loop of candidate [i]: [guaranteed_changed_idx]
    is drawn, then [unif01(gen)], for every dimension [j]. *)
Fixpoint crossover (i r1 r2 r3 : nat) (js : list nat) : RNG candidate :=
  match js with
  | [] => ret []
  | j :: js' =>
      idx <- gen_call ;;
      let guaranteed_changed_idx := N.to_nat (N.modulo idx (N.of_nat dimension)) in
      u <- unif01 ;;
      let v :=
        if flt_lt u (crossover_probability p) || Nat.eqb j guaranteed_changed_idx
        then clamp (mutant r1 r2 r3 j) (nth j (lower_bounds p) NaN)
                   (nth j (upper_bounds p) NaN)
        else coord i j in
      rest <- crossover i r1 r2 r3 js' ;;
      ret (v :: rest)
  end.

(** Lines 164-173: the three rejection loops of candidate [i]. *)
Definition draw_mutation_indices (fuel i : nat) : RNG (nat * nat * nat) :=
  r1 <- draw_index fuel (NP p) [i] ;;
  r2 <- draw_index fuel (NP p) [i; r1] ;;
  r3 <- draw_index fuel (NP p) [i; r2; r1] ;;
  ret (r1, r2, r3).

(** One iteration of [for (size_t i = 0; i < NP; ++i)]. *)
Definition make_trial (fuel i : nat) : RNG candidate :=
  rs <- draw_mutation_indices fuel i ;;
  let '(r1, r2, r3) := rs in
  crossover i r1 r2 r3 (seq 0 dimension).

Fixpoint make_trials (fuel : nat) (is : list nat) : RNG (list candidate) :=
  match is with
  | [] => ret []
  | i :: is' =>
      t <- make_trial fuel i ;;
      ts <- make_trials fuel is' ;;
      ret (t :: ts)
  end.

Definition trial_vectors (fuel : nat) : RNG (list candidate) :=
  make_trials fuel (seq 0 (NP p)).

End Trials.

(** ** Shared state and the evaluation phases (lines 109-140, 190-223) *)

Record de_state : Type := mk_state {
  population : list candidate;
  cost : list flt;
  target_attained : bool;
  cancelled : bool;                    (** the caller's [*cancellation] *)
  queries : list (candidate * flt);   (** the caller's [*queries] *)
  calls : nat                          (** objective evaluations so far *)
}.

Definition set_cost (i : nat) (c : flt) (st : de_state) : de_state :=
  mk_state (population st) (replace_nth i c (cost st)) (target_attained st)
           (cancelled st) (queries st) (calls st).

Definition set_candidate (i : nat) (x : candidate) (st : de_state) : de_state :=
  mk_state (replace_nth i x (population st)) (cost st) (target_attained st)
           (cancelled st) (queries st) (calls st).

Definition set_target_attained (st : de_state) : de_state :=
  mk_state (population st) (cost st) true (cancelled st) (queries st) (calls st).

Definition set_cancelled (st : de_state) : de_state :=
  mk_state (population st) (cost st) (target_attained st) true (queries st) (calls st).

Definition push_query (x : candidate) (c : flt) (st : de_state) : de_state :=
  mk_state (population st) (cost st) (target_attained st) (cancelled st)
           (queries st ++ [(x, c)]) (calls st).

Definition count_call (st : de_state) : de_state :=
  mk_state (population st) (cost st) (target_attained st) (cancelled st)
           (queries st) (S (calls st)).

(** The result of one iteration of a worker loop: [continue] to the next
    index, or [return] from the worker. *)
Inductive step_result : Type :=
| Continue : de_state -> step_result
| Return : de_state -> step_result.

(** [for (size_t i = j; i < n; i += step)] *)
Fixpoint stride_from (fuel i step n : nat) : list nat :=
  match fuel with
  | O => []
  | S fuel' => if Nat.ltb i n then i :: stride_from fuel' (i + step) step n else []
  end.

Definition worker_indices (n threads j : nat) : list nat := stride_from n j threads n.

Definition worker_lists (n threads : nat) : list (list nat) :=
  map (worker_indices n threads) (seq 0 threads).

(** A scheduling event: worker [j] runs one iteration, or the caller sets the
    cancellation flag. *)
Inductive event : Type :=
| Run : nat -> event
| Cancel : event.

Section Phase.

Variable body : nat -> de_state -> step_result.

Definition worker_step (rem : list nat) (st : de_state) : list nat * de_state :=
  match rem with
  | [] => ([], st)
  | i :: rem' =>
      match body i st with
      | Continue st' => (rem', st')
      | Return st' => ([], st')
      end
  end.

Fixpoint run_events (evs : list event) (rems : list (list nat)) (st : de_state)
  : list (list nat) * de_state :=
  match evs with
  | [] => (rems, st)
  | Run j :: evs' =>
      let '(rem', st') := worker_step (nth j rems []) st in
      run_events evs' (replace_nth j rem' rems) st'
  | Cancel :: evs' => run_events evs' rems (set_cancelled st)
  end.

(** A worker run to its end. *)
Fixpoint run_worker (rem : list nat) (st : de_state) : de_state :=
  match rem with
  | [] => st
  | i :: rem' =>
      match body i st with
      | Continue st' => run_worker rem' st'
      | Return st' => st'
      end
  end.

(** [thread.join()] for every worker. *)
Definition join (rems : list (list nat)) (st : de_state) : de_state :=
  fold_left (fun st rem => run_worker rem st) rems st.

(** One parallel phase: the workers' index lists, interleaved by [evs]. *)
Definition phase (rems : list (list nat)) (evs : list event) (st : de_state) : de_state :=
  let '(rems', st') := run_events evs rems st in join rems' st'.

End Phase.

Section Evaluation.

Variable cost_function : candidate -> flt.
Variable target_value : flt.
Variable has_cancellation : bool.   (** [cancellation != nullptr] *)
Variable has_queries : bool.        (** [queries != nullptr] *)

(** Lines 124-134: the body of the initial scoring loop. *)
Definition initial_iteration (i : nat) (st : de_state) : step_result :=
  let x := nth i (population st) [] in
  let c := cost_function x in
  let st := set_cost i c (count_call st) in
  let st := if has_queries then push_query x c st else st in
  Continue (if negb (isnan target_value) && flt_le c target_value
            then set_target_attained st else st).

(** Lines 194-217: the body of the trial evaluation loop. *)
Definition trial_iteration (trials : list candidate) (i : nat) (st : de_state)
  : step_result :=
  if target_attained st then Return st
  else if has_cancellation && cancelled st then Return st
  else
    let t := nth i trials [] in
    let trial_cost := cost_function t in
    let st := count_call st in
    if isnan trial_cost then Continue st
    else
      let st := if has_queries then push_query t trial_cost st else st in
      let ci := nth i (cost st) NaN in
      if flt_lt trial_cost ci || isnan ci then
        let st := set_cost i trial_cost st in
        let st := if negb (isnan target_value) && flt_le trial_cost target_value
                  then set_target_attained st else st in
        Continue (set_candidate i t st)
      else Continue st.

End Evaluation.

(** ** The whole call (lines 88-228) *)

Inductive de_outcome : Type :=
| ConfigError : config_error -> de_outcome   (** [validate_...] throws *)
| Diverged : de_outcome                      (** a rejection loop ran out of fuel *)
| Returned : candidate -> de_outcome.

Record de_run : Type := mk_run {
  outcome : de_outcome;
  final_state : de_state;
  trial_history : list (list candidate);   (** the trial vectors of each generation *)
  cost_history : list (list flt)           (** [cost] after each phase *)
}.

Definition empty_state : de_state := mk_state [] [] false false [] 0.

Section Run.

(** [detail::random_initial_population], an external collaborator (not
    under src/): it receives the bounds, [NP] and the generator. *)
Variable random_initial_population :
  list flt -> list flt -> nat -> urbg -> list candidate * urbg.
Variable cost_function : candidate -> flt.
Variable target_value : flt.
Variable has_cancellation : bool.
Variable has_queries : bool.
(** Fuel of each rejection loop. *)
Variable fuel : nat.
(** The interleaving of phase [k]: phase 0 is the initial scoring, phase
    [S g] evaluates the trials of generation [g]. *)
Variable sched : nat -> list event.

Variable p : de_params.

Definition initial_phase (st : de_state) : de_state :=
  phase (initial_iteration cost_function target_value has_queries)
        (worker_lists (NP p) (threads p)) (sched 0) st.

Definition trial_phase (generation : nat) (trials : list candidate) (st : de_state)
  : de_state :=
  phase (trial_iteration cost_function target_value has_cancellation has_queries trials)
        (worker_lists (NP p) (threads p)) (sched (S generation)) st.

(** [for (generation = ...; generation < max_generations; ++generation)];
    the boolean result tells whether a rejection loop ran out of fuel. *)
Fixpoint generation_loop (n generation : nat) (st : de_state) (g : urbg)
         (th : list (list candidate)) (ch : list (list flt))
  : bool * de_state * list (list candidate) * list (list flt) :=
  match n with
  | O => (false, st, th, ch)
  | S n' =>
      if has_cancellation && cancelled st then (false, st, th, ch)
      else if target_attained st then (false, st, th, ch)
      else
        match trial_vectors p (population st) fuel g with
        | None => (true, st, th, ch)
        | Some (trials, g') =>
            let st' := trial_phase generation trials st in
            generation_loop n' (S generation) st' g' (th ++ [trials]) (ch ++ [cost st'])
        end
  end.

Definition initial_state (g : urbg) : de_state * urbg :=
  let '(pop0, g1) := random_initial_population (lower_bounds p) (upper_bounds p) (NP p) g in
  let pop := match initial_guess p with
             | Some x => replace_nth 0 x pop0
             | None => pop0
             end in
  (mk_state pop (repeat NaN (NP p)) false false [] 0, g1).

Definition differential_evolution (gen : urbg) : de_run :=
  match validate_differential_evolution_parameters p with
  | Some e => mk_run (ConfigError e) empty_state [] []
  | None =>
      let '(st0, g1) := initial_state gen in
      let st1 := initial_phase st0 in
      let '(diverged, st, th, ch) :=
        generation_loop (max_generations p) 0 st1 g1 [] [cost st1] in
      mk_run (if diverged then Diverged
              else Returned (nth (min_element (cost st)) (population st) []))
             st th ch
  end.

End Run.

(** Modelled from the spec: [detail::random_initial_population] (not under
    src/).  Section 4.2: [NP] candidates, every coordinate drawn uniformly
    within [[lower[j], upper[j]]], as [lower + u * (upper - lower)] with [u]
    from [unif01]. *)
Fixpoint draw_candidate (bounds : list (flt * flt)) (g : urbg) : candidate * urbg :=
  match bounds with
  | [] => ([], g)
  | (l, u) :: bounds' =>
      let x := match unif01 g with
               | Some (x, _) => x
               | None => NaN
               end in
      let '(rest, g') := draw_candidate bounds' (mk_urbg (stream g) (S (pos g))) in
      (flt_add l (flt_mul x (flt_sub u l)) :: rest, g')
  end.

Fixpoint random_initial_population (lb ub : list flt) (n : nat) (g : urbg)
  : list candidate * urbg :=
  match n with
  | O => ([], g)
  | S n' =>
      let '(x, g1) := draw_candidate (combine lb ub) g in
      let '(xs, g2) := random_initial_population lb ub n' g1 in
      (x :: xs, g2)
  end.

(** ** Concrete scenarios *)

(** A generator replaying a fixed list of outputs (then 0). *)
Definition replay (l : list N) : urbg := mk_urbg (fun k => nth k l 0%N) 0.

(** The objective [x |-> x0 * x0] on one-dimensional candidates. *)
Definition square (x : candidate) : flt :=
  match x with
  | [Fin q] => Fin (Qred (q * q))
  | _ => NaN
  end.

(** One dimension in [[-8, 8]], F = CR = 1/2, NP = 4, two workers. *)
Definition params_1d (gens : nat) (guess : option candidate) : de_params :=
  mk_params [Fin (-8)] [Fin 8] (Fin (1 # 2)) (Fin (1 # 2)) 4 gens guess 2.

(** The generator output from which [random_initial_population] draws the
    coordinate [x] of [[-8, 8]]: [(x + 8) / 16 * 2^32]. *)
Definition coordinate_draw (x : Z) : N := Z.to_N ((x + 8) * 268435456).

(** Initial population [2; 5/2; -3; 1]; generation 0 mutates slot 0 from
    (r1, r2, r3) = (1, 2, 3), slot 1 from (0, 2, 3), slot 2 from (0, 1, 3) and
    slot 3 from (0, 1, 2); every [unif01] draw is 0. *)
Definition race_stream : list N :=
  [coordinate_draw 2; Z.to_N (21 * 134217728); coordinate_draw (-3); coordinate_draw 1;
   1; 2; 3; 0; 0;
   0; 2; 3; 0; 0;
   0; 1; 3; 0; 0;
   0; 1; 2; 0; 0]%N.

(** Two interleavings of the generation-0 trial phase: worker 0 first (the
    join order), or worker 1 running its two iterations first. *)
Definition worker0_first : nat -> list event := fun _ => [].
Definition worker1_first : nat -> list event :=
  fun k => match k with 1%nat => [Run 1; Run 1] | _ => [] end.

Definition race_run (sched : nat -> list event) : de_run :=
  differential_evolution random_initial_population square (Fin (1 # 2)) false false
                         10 sched (params_1d 1 None) (replay race_stream).

(** Two dimensions in [[-8, 8]], F = CR = 1/2, NP = 4, one worker. *)
Definition params_2d : de_params :=
  mk_params [Fin (-8); Fin (-8)] [Fin 8; Fin 8] (Fin (1 # 2)) (Fin (1 # 2)) 4 1 None 1.

Definition population_2d : list candidate :=
  [[Fin 0; Fin 0]; [Fin 1; Fin 1]; [Fin 2; Fin 2]; [Fin 3; Fin 3]].

(** Candidate 0 draws (r1, r2, r3) = (1, 2, 3); in dimension 0 the
    guaranteed index is 1 and in dimension 1 it is 0, and both [unif01]
    draws are about 0.7 (above CR). *)
Definition crossover_stream : list N := [1; 2; 3; 1; 3000000000; 0; 3000000000]%N.

(** An objective that is NaN at the origin and [x0 * x0] elsewhere. *)
Definition nan_at_origin (x : candidate) : flt :=
  match x with
  | [Fin q] => if Qeq_bool q 0 then NaN else Fin (Qred (q * q))
  | _ => NaN
  end.

(** Initial guess 0 in slot 0, target value 100: the target is reached in
    the initial scoring, whose cost in slot 0 is NaN. *)
Definition nan_slot_run : de_run :=
  differential_evolution random_initial_population nan_at_origin (Fin 100) false false
                         10 worker0_first (params_1d 1 (Some [Fin 0])) (replay race_stream).

(** An objective that always returns NaN, with the query log supplied. *)
Definition nan_objective_run : de_run :=
  differential_evolution random_initial_population (fun _ => NaN) NaN false true
                         10 worker0_first (params_1d 1 None) (replay race_stream).

(** A one-bit engine ([std::independent_bits_engine<..., 1, ...>]): its
    outputs are 0, 1, 0, 1, ... *)
Definition one_bit_engine : urbg := mk_urbg (fun k => N.of_nat (Nat.modulo k 2)) 0.

(** A generator whose [k]-th output is [k]. *)
Definition counting_engine : urbg := mk_urbg N.of_nat 0.

(** The final state of one worker-loop iteration. *)
Definition result_state (r : step_result) : de_state :=
  match r with Continue st => st | Return st => st end.

(** A slot holding cost 0 and candidate [1], and a slot still holding the
    NaN sentinel, each facing the trial [2]. *)
Definition one_slot_state (c : flt) : de_state := mk_state [[Fin 1]] [c] false false [] 0.

(** The configurations that Sections 4.1 and 7 of the spec call invalid:
    malformed bounds, NP < 4, F outside the open interval (0, 1) (NaN
    included), max_generations < 1, zero threads, an invalid initial guess. *)
Definition misconfigured (p : de_params) : bool :=
  match validate_bounds (lower_bounds p) (upper_bounds p) with Some _ => true | None => false end
  || Nat.ltb (NP p) 4
  || negb (flt_lt (Fin 0) (mutation_factor p) && flt_lt (mutation_factor p) (Fin 1))
  || Nat.ltb (max_generations p) 1
  || Nat.eqb (threads p) 0
  || match initial_guess p with
     | Some x =>
         match validate_initial_guess x (lower_bounds p) (upper_bounds p) with
         | Some _ => true
         | None => false
         end
     | None => false
     end.

Definition set_crossover_probability (p : de_params) (c : flt) : de_params :=
  mk_params (lower_bounds p) (upper_bounds p) (mutation_factor p) c (NP p)
            (max_generations p) (initial_guess p) (threads p).

Definition is_config_error (o : de_outcome) : bool :=
  match o with ConfigError _ => true | _ => false end.

(** The generator keeps producing every residue modulo [n]: for every
    position [k] and every residue [r < n], some output at or after [k] is
    [r] modulo [n]. *)
Definition residues_recur (g : urbg) (n : nat) : Prop :=
  forall k r, (r < n)%nat ->
  exists k', (k <= k')%nat /\ N.to_nat (N.modulo (stream g k') (N.of_nat n)) = r.

(** The rejection loops of candidate [i] do not finish, whatever the fuel. *)
Definition mutation_indices_diverge (p : de_params) (i : nat) (g : urbg) : Prop :=
  forall fuel, draw_mutation_indices p fuel i g = None.

(** ** Views used by the properties *)

(** The cost and the candidate held at slot [k] ([None] out of range). *)
Definition slot (st : de_state) (k : nat) : option flt * option candidate :=
  (nth_error (cost st) k, nth_error (population st) k).

(** What one iteration [i] of the initial scoring loop does to slot [i]
    ([cost[i] = cost_function(population[i])]), and whether it raises the
    target flag. *)
Definition initial_slot_update (f : candidate -> flt) (i : nat)
           (s : option flt * option candidate) : option flt * option candidate :=
  let x := match snd s with Some x => x | None => [] end in
  (option_map (fun _ => f x) (fst s), snd s).

Definition initial_slot_attains (f : candidate -> flt) (tv : flt) (i : nat)
           (s : option flt * option candidate) : bool :=
  let x := match snd s with Some x => x | None => [] end in
  negb (isnan tv) && flt_le (f x) tv.

(** The selection test of the trial loop on slot [i], and what an iteration
    that is not cut short does to slot [i] and to the target flag. *)
Definition trial_accepts (f : candidate -> flt) (trials : list candidate) (i : nat)
           (s : option flt * option candidate) : bool :=
  let tc := f (nth i trials []) in
  let ci := match fst s with Some c => c | None => NaN end in
  negb (isnan tc) && (flt_lt tc ci || isnan ci).

Definition trial_slot_update (f : candidate -> flt) (trials : list candidate) (i : nat)
           (s : option flt * option candidate) : option flt * option candidate :=
  if trial_accepts f trials i s
  then (option_map (fun _ => f (nth i trials [])) (fst s),
        option_map (fun _ => nth i trials []) (snd s))
  else s.

Definition trial_slot_attains (f : candidate -> flt) (tv : flt) (trials : list candidate)
           (i : nat) (s : option flt * option candidate) : bool :=
  trial_accepts f trials i s && negb (isnan tv) && flt_le (f (nth i trials [])) tv.

(** The invariant of a parallel phase started in [st0] over the indices
    [all], in a state [st] whose workers still have the indices [P] to run:
    some set [D] of indices has been processed, each by one uninterrupted
    iteration [upd]; the target flag is set exactly when it was set at the
    start or some processed slot raised it; and every index that is neither
    processed nor pending was dropped by a worker that returned on the flag. *)
Definition phase_inv
           (upd : nat -> option flt * option candidate -> option flt * option candidate)
           (att : nat -> option flt * option candidate -> bool) (stops : bool)
           (st0 : de_state) (all P : list nat) (st : de_state) : Prop :=
  exists D : nat -> bool,
    (forall k, slot st k = if D k then upd k (slot st0 k) else slot st0 k) /\
    (target_attained st = true <->
     target_attained st0 = true \/ exists k, D k = true /\ att k (slot st0 k) = true) /\
    (forall k, D k = true -> In k all) /\
    (forall k, In k all -> D k = false -> In k P \/ (stops = true /\ target_attained st = true)) /\
    incl P all.

(** [a] is no larger than [b] when the not-yet-evaluated NaN sentinel counts
    as the largest cost. *)
Definition sent_le (a b : flt) : bool := isnan b || (negb (isnan a) && flt_le a b).

(** The smaller of two costs, NaN sentinels ignored. *)
Definition fmin (a b : flt) : flt :=
  if isnan a then b else if isnan b then a else if flt_lt b a then b else a.

(** The minimum cost of the population, NaN sentinels ignored (NaN when every
    slot holds the sentinel). *)
Definition min_cost (l : list flt) : flt := fold_right fmin NaN l.

(** [R] holds between every two neighbours of [l]. *)
Fixpoint consecutive {A} (R : A -> A -> Prop) (l : list A) : Prop :=
  match l with
  | x :: ((y :: _) as l') => R x y /\ consecutive R l'
  | _ => True
  end.

(** From the cost vector [old] to [new]: no slot's cost grows, and the
    minimum cost does not grow. *)
Definition no_regression (old new : list flt) : Prop :=
  Forall2 (fun n o => sent_le n o = true) new old /\
  sent_le (min_cost new) (min_cost old) = true.

(** [x] has the dimension of the bounds and [lower[j] <= x[j] <= upper[j]]
    in every dimension [j]. *)
Definition in_bounds (lb ub : list flt) (x : candidate) : bool :=
  Nat.eqb (length x) (length lb) &&
  forallb (fun j => flt_le (nth j lb NaN) (nth j x NaN) && flt_le (nth j x NaN) (nth j ub NaN))
          (seq 0 (length lb)).

(** Population and cost vector of length [NP], every candidate within the
    bounds. *)
Definition state_in_bounds (p : de_params) (st : de_state) : Prop :=
  length (population st) = NP p /\ length (cost st) = NP p /\
  Forall (fun x => in_bounds (lower_bounds p) (upper_bounds p) x = true) (population st).

(** ** Views used by the further properties *)

(** Every cost is the objective of the candidate in the same slot. *)
Definition costs_agree (f : candidate -> flt) (st : de_state) : Prop :=
  Forall2 (fun x c => c = f x) (population st) (cost st).

(** Every logged pair is [(x, cost_function(x))]; nothing is logged without
    a log; at most one entry per objective call. *)
Definition log_sound (f : candidate -> flt) (hq : bool) (st : de_state) : Prop :=
  Forall (fun q => snd q = f (fst q)) (queries st) /\
  (hq = false -> queries st = []) /\
  (length (queries st) <= calls st)%nat.

(** No cost reaches the target while the flag is clear. *)
Definition below_target (tv : flt) (st : de_state) : Prop :=
  target_attained st = false -> Forall (fun c => flt_le c tv = false) (cost st).

(** [n] costs, and the flag is set only with a cost at or below the target. *)
Definition flag_witnessed (n : nat) (tv : flt) (st : de_state) : Prop :=
  length (cost st) = n /\
  (target_attained st = true -> Exists (fun c => flt_le c tv = true) (cost st)).

(** Every candidate is one of [pop0] or a trial vector of [th]. *)
Definition from_start_or_trials (pop0 : list candidate) (th : list (list candidate))
           (st : de_state) : Prop :=
  Forall (fun x => In x pop0 \/ exists ts, In ts th /\ In x ts) (population st).


Open Scope nat_scope.

(** * Properties *)

(** ** Selection *)

(** C1 (as amended): in a trial-phase iteration that is not cut short by the
    target flag or the cancellation flag, the trial replaces the parent at
    slot [i] exactly when its cost is not NaN and (it is below [cost[i]] or
    [cost[i]] is NaN); otherwise population and costs are unchanged.  An
    infinite trial cost is compared like any other value. *)
Theorem trial_selection_rule :
  forall (f : candidate -> flt) (tv : flt) (hc hq : bool) (trials : list candidate)
         (i : nat) (st : de_state),
  target_attained st = false ->
  hc && cancelled st = false ->
  exists st',
    trial_iteration f tv hc hq trials i st = Continue st' /\
    (if negb (isnan (f (nth i trials []))) &&
        (flt_lt (f (nth i trials [])) (nth i (cost st) NaN) || isnan (nth i (cost st) NaN))
     then cost st' = replace_nth i (f (nth i trials [])) (cost st) /\
          population st' = replace_nth i (nth i trials []) (population st)
     else cost st' = cost st /\ population st' = population st).
Proof.
  intros f tv hc hq trials i st Ht Hc.
  unfold trial_iteration. rewrite Ht, Hc.
  destruct (isnan (f (nth i trials []))) eqn:Hn; simpl.
  - eexists; split; [reflexivity | simpl; auto].
  - destruct (flt_lt (f (nth i trials [])) (nth i (cost st) NaN)
              || isnan (nth i (cost st) NaN)) eqn:Hsel;
    destruct hq; simpl; rewrite Hsel;
    (eexists; split; [reflexivity|]);
    try destruct (negb (isnan tv) && flt_le (f (nth i trials [])) tv); simpl; auto.
Qed.

Lemma trial_selection_rule_witness :
  target_attained (one_slot_state (Fin 0)) = false /\
  false && cancelled (one_slot_state (Fin 0)) = false /\
  exists st',
    trial_iteration square NaN false false [[Fin 2]] 0 (one_slot_state (Fin 0)) = Continue st' /\
    (if negb (isnan (square (nth 0 [[Fin 2]] []))) &&
        (flt_lt (square (nth 0 [[Fin 2]] [])) (nth 0 (cost (one_slot_state (Fin 0))) NaN)
         || isnan (nth 0 (cost (one_slot_state (Fin 0))) NaN))
     then cost st' = replace_nth 0 (square (nth 0 [[Fin 2]] [])) (cost (one_slot_state (Fin 0))) /\
          population st' = replace_nth 0 (nth 0 [[Fin 2]] []) (population (one_slot_state (Fin 0)))
     else cost st' = cost (one_slot_state (Fin 0)) /\
          population st' = population (one_slot_state (Fin 0))).
Proof.
  split; [reflexivity|]. split; [reflexivity|].
  apply (trial_selection_rule square NaN false false [[Fin 2]] 0 (one_slot_state (Fin 0)));
    reflexivity.
Defined.

(** C1 counterexample: a trial cost of -inf replaces the finite cost 0, and a
    trial cost of +inf replaces the NaN sentinel; neither is discarded. *)
Lemma infinite_trial_cost_accepted :
  isfinite NInf = false /\ isfinite PInf = false /\
  (cost (result_state (trial_iteration (fun _ => NInf) NaN false false [[Fin 2]] 0
                                       (one_slot_state (Fin 0)))),
   population (result_state (trial_iteration (fun _ => NInf) NaN false false [[Fin 2]] 0
                                             (one_slot_state (Fin 0)))))
  = ([NInf], [[Fin 2]]) /\
  (cost (result_state (trial_iteration (fun _ => PInf) NaN false false [[Fin 2]] 0
                                       (one_slot_state NaN))),
   population (result_state (trial_iteration (fun _ => PInf) NaN false false [[Fin 2]] 0
                                             (one_slot_state NaN))))
  = ([PInf], [[Fin 2]]).
Proof. repeat split; reflexivity. Qed.

(** ** Crossover *)

(** C2: the guaranteed index is drawn inside the dimension loop, once per
    dimension.  With the generator [crossover_stream], candidate 0 of
    [population_2d] draws 3 indices and then 2 outputs per dimension (7 in
    all), the guaranteed index never equals the current dimension, and the
    trial vector equals its parent [[0; 0]]. *)
Theorem trial_can_equal_parent :
  make_trial params_2d population_2d 10 0 (replay crossover_stream)
  = Some ([Fin 0; Fin 0], mk_urbg (stream (replay crossover_stream)) 7) /\
  nth 0 population_2d [] = [Fin 0; Fin 0].
Proof. split; vm_compute; reflexivity. Qed.

(** ** The returned candidate *)

(** C4: [std::min_element] never moves past a leading NaN.  In
    [nan_slot_run] the target is reached in the initial scoring, the final
    costs are [NaN; 25/4; 9; 1], and the call returns slot 0 (the guess 0,
    whose cost is the NaN sentinel) rather than slot 3 of cost 1. *)
Theorem min_element_stops_at_leading_nan :
  cost (final_state nan_slot_run) = [NaN; Fin (25 # 4); Fin 9; Fin 1] /\
  min_element (cost (final_state nan_slot_run)) = 0%nat /\
  outcome nan_slot_run = Returned [Fin 0].
Proof. repeat split; vm_compute; reflexivity. Qed.

(** ** The query log *)

(** C8: with an objective that always returns NaN, one generation and the
    query log supplied, the call evaluates the objective 8 times (4 initial
    scorings, 4 trials) but logs only the 4 initial scorings: the trial loop
    [continue]s on a NaN cost before it appends to the log. *)
Theorem nan_trial_costs_not_logged :
  calls (final_state nan_objective_run) = 8%nat /\
  length (queries (final_state nan_objective_run)) = 4%nat /\
  length (trial_history nan_objective_run) = 1%nat.
Proof. repeat split; vm_compute; reflexivity. Qed.

(** ** Validation *)

(** C10: validation never reads the crossover probability: changing it to
    any value (NaN, infinities, values outside [0, 1] included) changes
    neither the validation result nor whether the call ends in a
    configuration error; the value reaches [crossover] unchanged. *)
Theorem crossover_probability_unchecked :
  forall (p : de_params) (c : flt),
  validate_differential_evolution_parameters (set_crossover_probability p c)
  = validate_differential_evolution_parameters p /\
  crossover_probability (set_crossover_probability p c) = c /\
  forall init f tv hc hq fuel sched g,
    is_config_error (outcome (differential_evolution init f tv hc hq fuel sched
                                (set_crossover_probability p c) g))
    = is_config_error (outcome (differential_evolution init f tv hc hq fuel sched p g)).
Proof.
  intros p c.
  assert (Hv : validate_differential_evolution_parameters (set_crossover_probability p c)
               = validate_differential_evolution_parameters p) by reflexivity.
  split; [exact Hv | split; [reflexivity |]].
  intros init f tv hc hq fuel sched g.
  unfold differential_evolution. rewrite Hv.
  destruct (validate_differential_evolution_parameters p); [reflexivity |].
  destruct (initial_state _ _ g) as [st0 g1].
  destruct (initial_state init p g) as [st0' g1'].
  destruct (generation_loop _ _ _ _ _ _ _ _ _ _ _ _ _) as [[[d1 s1] th1] ch1].
  destruct (generation_loop f tv hc hq fuel sched p _ _ _ _ _ _) as [[[d2 s2] th2] ch2].
  destruct d1, d2; reflexivity.
Qed.

Lemma misconfigured_rejected :
  forall p, misconfigured p = true ->
  exists e, validate_differential_evolution_parameters p = Some e.
Proof.
  intros p H. unfold misconfigured in H.
  unfold validate_differential_evolution_parameters.
  destruct (validate_bounds (lower_bounds p) (upper_bounds p)) as [e|]; [eauto|].
  simpl in H.
  destruct (Nat.ltb (NP p) 4); [eauto|]. simpl in H.
  destruct (mutation_factor p) as [| | | q]; simpl in *; [eauto | eauto | eauto |].
  destruct (Qltb 0 q), (Qltb q 1); simpl in *; try solve [eauto].
  destruct (Nat.ltb (max_generations p) 1); [eauto|]. simpl in H.
  destruct (initial_guess p) as [x|].
  - destruct (validate_initial_guess x (lower_bounds p) (upper_bounds p)); [eauto|].
    rewrite orb_false_r in H.
    destruct (Nat.eqb (threads p) 0); [eauto | discriminate].
  - rewrite orb_false_r in H.
    destruct (Nat.eqb (threads p) 0); [eauto | discriminate].
Qed.

(** C5: every misconfigured parameter set (malformed bounds, NP < 4, F not in
    the open interval (0, 1) or NaN, max_generations < 1, zero threads, an
    invalid initial guess) ends the call in a configuration error before
    anything runs: no objective evaluation, no query logged, no generation,
    no candidate returned. *)
Theorem misconfigured_fails_before_evaluation :
  forall init f tv hc hq fuel sched p g,
  misconfigured p = true ->
  exists e,
    outcome (differential_evolution init f tv hc hq fuel sched p g) = ConfigError e /\
    calls (final_state (differential_evolution init f tv hc hq fuel sched p g)) = 0%nat /\
    queries (final_state (differential_evolution init f tv hc hq fuel sched p g)) = [] /\
    trial_history (differential_evolution init f tv hc hq fuel sched p g) = [] /\
    cost_history (differential_evolution init f tv hc hq fuel sched p g) = [].
Proof.
  intros init f tv hc hq fuel sched p g H.
  destruct (misconfigured_rejected p H) as [e He].
  exists e. unfold differential_evolution. rewrite He. repeat split.
Qed.

(** F = 0 and F = 1 are each misconfigured. *)
Lemma misconfigured_fails_before_evaluation_witness :
  misconfigured (mk_params [Fin (-8)] [Fin 8] (Fin 0) (Fin (1 # 2)) 4 1 None 2) = true /\
  misconfigured (mk_params [Fin (-8)] [Fin 8] (Fin 1) (Fin (1 # 2)) 4 1 None 2) = true /\
  exists e,
    outcome (differential_evolution random_initial_population square NaN false true 10
               worker0_first (mk_params [Fin (-8)] [Fin 8] (Fin 1) (Fin (1 # 2)) 4 1 None 2)
               (replay race_stream)) = ConfigError e /\
    calls (final_state (differential_evolution random_initial_population square NaN false true 10
               worker0_first (mk_params [Fin (-8)] [Fin 8] (Fin 1) (Fin (1 # 2)) 4 1 None 2)
               (replay race_stream))) = 0%nat /\
    queries (final_state (differential_evolution random_initial_population square NaN false true 10
               worker0_first (mk_params [Fin (-8)] [Fin 8] (Fin 1) (Fin (1 # 2)) 4 1 None 2)
               (replay race_stream))) = [] /\
    trial_history (differential_evolution random_initial_population square NaN false true 10
               worker0_first (mk_params [Fin (-8)] [Fin 8] (Fin 1) (Fin (1 # 2)) 4 1 None 2)
               (replay race_stream)) = [] /\
    cost_history (differential_evolution random_initial_population square NaN false true 10
               worker0_first (mk_params [Fin (-8)] [Fin 8] (Fin 1) (Fin (1 # 2)) 4 1 None 2)
               (replay race_stream)) = [].
Proof.
  split; [vm_compute; reflexivity|]. split; [vm_compute; reflexivity|].
  apply misconfigured_fails_before_evaluation. vm_compute. reflexivity.
Defined.

(** ** The rejection loops *)

Lemma residue_lt : forall (x : N) (n : nat), 0 < n -> N.to_nat (N.modulo x (N.of_nat n)) < n.
Proof.
  intros x n Hn. rewrite N2Nat.inj_mod, Nat2N.id.
  apply Nat.mod_upper_bound. lia.
Qed.

Lemma existsb_eqb_false : forall r l, existsb (Nat.eqb r) l = false -> ~ In r l.
Proof.
  intros r l H Hin.
  assert (E : existsb (Nat.eqb r) l = true).
  { apply existsb_exists. exists r. split; [exact Hin | apply Nat.eqb_refl]. }
  congruence.
Qed.

Lemma draw_index_sound :
  forall fuel n excl g r g',
  draw_index fuel n excl g = Some (r, g') ->
  stream g' = stream g /\ ~ In r excl /\
  exists k, r = N.to_nat (N.modulo (stream g k) (N.of_nat n)).
Proof.
  induction fuel as [|fuel IH]; intros n excl g r g' H; [discriminate|].
  simpl in H. unfold bind, gen_call in H. simpl in H.
  destruct (existsb (Nat.eqb (N.to_nat (N.modulo (stream g (pos g)) (N.of_nat n)))) excl) eqn:E.
  - destruct (IH _ _ _ _ _ H) as [Hs [Hni [k Hk]]]. simpl in Hs.
    split; [exact Hs | split; [exact Hni | exists k; exact Hk]].
  - unfold ret in H. injection H as <- <-. simpl.
    split; [reflexivity | split; [apply existsb_eqb_false; exact E | eauto]].
Qed.

Lemma draw_index_more_fuel :
  forall fuel m n excl g res,
  draw_index fuel n excl g = Some res -> draw_index (fuel + m) n excl g = Some res.
Proof.
  induction fuel as [|fuel IH]; intros m n excl g res H; [discriminate|].
  simpl in *. unfold bind, gen_call in *. simpl in *.
  destruct (existsb _ excl); [apply IH; exact H | exact H].
Qed.

Lemma draw_index_reaches :
  forall n excl s r k',
  ~ In r excl -> N.to_nat (N.modulo (s k') (N.of_nat n)) = r ->
  forall d k, k + d = k' ->
  exists fuel r' g', draw_index fuel n excl (mk_urbg s k) = Some (r', g').
Proof.
  intros n excl s r k' Hr Hk'. induction d as [|d IH]; intros k Hkd.
  - exists 1. simpl. unfold bind, gen_call. simpl.
    replace k with k' by lia. rewrite Hk'.
    destruct (existsb (Nat.eqb r) excl) eqn:E.
    + apply existsb_exists in E. destruct E as [x [Hx Hrx]].
      apply Nat.eqb_eq in Hrx. subst x. contradiction.
    + unfold ret. eauto.
  - destruct (IH (S k) ltac:(lia)) as [fuel [r' [g' H]]].
    exists (S fuel). simpl. unfold bind, gen_call. simpl.
    destruct (existsb _ excl); [eauto | unfold ret; eauto].
Qed.

Lemma draw_index_terminates :
  forall n excl g r,
  r < n -> ~ In r excl -> residues_recur g n ->
  exists fuel r' g', draw_index fuel n excl g = Some (r', g').
Proof.
  intros n excl [s k] r Hr Hn Hrec.
  destruct (Hrec k r Hr) as [k' [Hle Hk']]. simpl in Hk'.
  apply (draw_index_reaches n excl s r k' Hn Hk' (k' - k) k). lia.
Qed.

Lemma fourth_residue :
  forall a b c n, 4 <= n -> exists r, r < n /\ ~ In r [a; b; c].
Proof.
  intros a b c n Hn.
  assert (H : (a <> 0 /\ b <> 0 /\ c <> 0) \/ (a <> 1 /\ b <> 1 /\ c <> 1) \/
              (a <> 2 /\ b <> 2 /\ c <> 2) \/ (a <> 3 /\ b <> 3 /\ c <> 3)) by lia.
  destruct H as [H | [H | [H | H]]];
    [exists 0 | exists 1 | exists 2 | exists 3]; simpl; split; lia.
Qed.

Lemma draw_index_mono :
  forall fuel fuel' n excl g res,
  fuel <= fuel' -> draw_index fuel n excl g = Some res -> draw_index fuel' n excl g = Some res.
Proof.
  intros fuel fuel' n excl g res Hle H.
  replace fuel' with (fuel + (fuel' - fuel)) by lia.
  apply draw_index_more_fuel. exact H.
Qed.

Lemma residues_recur_stream :
  forall g g' n, stream g' = stream g -> residues_recur g n -> residues_recur g' n.
Proof. intros g g' n Hs H. unfold residues_recur in *. rewrite Hs. exact H. Qed.

(** C9 (as amended): for NP >= 4 the three rejection loops of candidate [i]
    terminate as soon as the generator keeps producing every residue modulo
    NP; whenever they terminate, r1, r2 and r3 are below NP, mutually
    distinct and distinct from [i]. *)
Theorem mutation_indices_terminate_when_residues_recur :
  forall p i g,
  4 <= NP p -> residues_recur g (NP p) ->
  (exists fuel r1 r2 r3 g', draw_mutation_indices p fuel i g = Some ((r1, r2, r3), g')) /\
  (forall fuel r1 r2 r3 g',
     draw_mutation_indices p fuel i g = Some ((r1, r2, r3), g') ->
     r1 <> i /\ r2 <> i /\ r3 <> i /\ r1 <> r2 /\ r1 <> r3 /\ r2 <> r3 /\
     r1 < NP p /\ r2 < NP p /\ r3 < NP p).
Proof.
  intros p i g Hn Hrec. split.
  - destruct (fourth_residue i i i (NP p) Hn) as [a [Ha Hai]].
    destruct (draw_index_terminates (NP p) [i] g a Ha ltac:(simpl in *; tauto) Hrec)
      as [f1 [r1 [g1 H1]]].
    destruct (draw_index_sound _ _ _ _ _ _ H1) as [Hs1 _].
    pose proof (residues_recur_stream g g1 _ Hs1 Hrec) as Hrec1.
    destruct (fourth_residue i r1 r1 (NP p) Hn) as [b [Hb Hbi]].
    destruct (draw_index_terminates (NP p) [i; r1] g1 b Hb ltac:(simpl in *; tauto) Hrec1)
      as [f2 [r2 [g2 H2]]].
    destruct (draw_index_sound _ _ _ _ _ _ H2) as [Hs2 _].
    pose proof (residues_recur_stream g1 g2 _ Hs2 Hrec1) as Hrec2.
    destruct (fourth_residue i r2 r1 (NP p) Hn) as [c [Hc Hci]].
    destruct (draw_index_terminates (NP p) [i; r2; r1] g2 c Hc Hci Hrec2)
      as [f3 [r3 [g3 H3]]].
    exists (f1 + f2 + f3), r1, r2, r3, g3.
    unfold draw_mutation_indices, bind.
    rewrite (draw_index_mono f1 (f1 + f2 + f3) _ _ _ _ ltac:(lia) H1).
    rewrite (draw_index_mono f2 (f1 + f2 + f3) _ _ _ _ ltac:(lia) H2).
    rewrite (draw_index_mono f3 (f1 + f2 + f3) _ _ _ _ ltac:(lia) H3).
    reflexivity.
  - intros fuel r1 r2 r3 g' H.
    unfold draw_mutation_indices, bind in H.
    destruct (draw_index fuel (NP p) [i] g) as [[x1 g1]|] eqn:H1; [|discriminate].
    destruct (draw_index fuel (NP p) [i; x1] g1) as [[x2 g2]|] eqn:H2; [|discriminate].
    destruct (draw_index fuel (NP p) [i; x2; x1] g2) as [[x3 g3]|] eqn:H3; [|discriminate].
    unfold ret in H. injection H as <- <- <- <-.
    destruct (draw_index_sound _ _ _ _ _ _ H1) as [_ [N1 [k1 K1]]].
    destruct (draw_index_sound _ _ _ _ _ _ H2) as [_ [N2 [k2 K2]]].
    destruct (draw_index_sound _ _ _ _ _ _ H3) as [_ [N3 [k3 K3]]].
    pose proof (residue_lt (stream g k1) (NP p) ltac:(lia)).
    pose proof (residue_lt (stream g1 k2) (NP p) ltac:(lia)).
    pose proof (residue_lt (stream g2 k3) (NP p) ltac:(lia)).
    simpl in N1, N2, N3. subst. intuition.
Qed.

Lemma counting_engine_residues : residues_recur counting_engine 4.
Proof.
  intros k r Hr. exists (r + k * 4). split; [lia|].
  unfold counting_engine. cbn [stream]. rewrite <- Nat2N.inj_mod, Nat2N.id.
  rewrite Nat.Div0.mod_add. apply Nat.mod_small. exact Hr.
Qed.

Lemma mutation_indices_terminate_when_residues_recur_witness :
  4 <= NP (params_1d 1 None) /\
  (exists fuel r1 r2 r3 g',
     draw_mutation_indices (params_1d 1 None) fuel 0 counting_engine = Some ((r1, r2, r3), g')) /\
  (forall fuel r1 r2 r3 g',
     draw_mutation_indices (params_1d 1 None) fuel 0 counting_engine = Some ((r1, r2, r3), g') ->
     r1 <> 0 /\ r2 <> 0 /\ r3 <> 0 /\ r1 <> r2 /\ r1 <> r3 /\ r2 <> r3 /\
     r1 < NP (params_1d 1 None) /\ r2 < NP (params_1d 1 None) /\ r3 < NP (params_1d 1 None)).
Proof.
  split; [simpl; lia|].
  apply mutation_indices_terminate_when_residues_recur;
    [simpl; lia | exact counting_engine_residues].
Defined.

Lemma one_bit_engine_second_loop :
  forall fuel k,
  draw_index fuel 4 [0; 1] (mk_urbg (fun k => N.of_nat (Nat.modulo k 2)) k) = None.
Proof.
  induction fuel as [|fuel IH]; intros k; [reflexivity|].
  cbn [draw_index]. unfold bind, gen_call. cbn [stream pos].
  assert (H : Nat.modulo k 2 = 0 \/ Nat.modulo k 2 = 1)
    by (pose proof (Nat.mod_upper_bound k 2); lia).
  destruct H as [H | H]; rewrite H; simpl; apply IH.
Qed.

(** C9 counterexample: NP = 4 does not make the loops terminate.  With a
    one-bit engine (outputs 0, 1, 0, 1, ...), candidate 0 gets r1 = 1 and the
    [r2] loop, which excludes 0 and 1, never ends. *)
Lemma one_bit_engine_diverges :
  NP (params_1d 1 None) = 4 /\ mutation_indices_diverge (params_1d 1 None) 0 one_bit_engine.
Proof.
  split; [reflexivity|]. intros fuel.
  unfold draw_mutation_indices, bind.
  destruct (draw_index fuel (NP (params_1d 1 None)) [0] one_bit_engine) as [[r1 g1]|] eqn:H1;
    [|reflexivity].
  destruct (draw_index_sound _ _ _ _ _ _ H1) as [Hs [Hn [k Hk]]].
  unfold one_bit_engine in Hk. cbn [stream NP params_1d] in Hk. simpl in Hn.
  assert (Hr : r1 = 1).
  { assert (H : Nat.modulo k 2 = 0 \/ Nat.modulo k 2 = 1)
      by (pose proof (Nat.mod_upper_bound k 2); lia).
    destruct H as [H | H]; rewrite H in Hk; simpl in Hk; subst r1; tauto. }
  rewrite Hr. destruct g1 as [s1 k1]. unfold one_bit_engine in Hs. cbn [stream] in Hs.
  subst s1.
  change (NP (params_1d 1 None)) with 4.
  rewrite one_bit_engine_second_loop. reflexivity.
Qed.

Lemma nth_error_replace_nth :
  forall A (l : list A) i x k,
  nth_error (replace_nth i x l) k =
  if Nat.eqb k i then option_map (fun _ => x) (nth_error l i) else nth_error l k.
Proof.
  induction l as [|y l IH]; intros i x k.
  - destruct i, k; simpl; try reflexivity; destruct (k =? i); reflexivity.
  - destruct i, k; simpl; auto.
Qed.

Lemma nth_as_error : forall A (l : list A) i d,
  nth i l d = match nth_error l i with Some x => x | None => d end.
Proof. induction l; destruct i; simpl; auto. Qed.

Lemma in_concat_replace_nth :
  forall A (rems : list (list A)) j x k,
  In k (concat rems) -> In k (concat (replace_nth j x rems)) \/ In k (nth j rems []).
Proof.
  induction rems as [|r rems IH]; intros j x k H; simpl in *; [contradiction|].
  apply in_app_or in H. destruct j; simpl.
  - destruct H; [right; assumption | left; apply in_or_app; right; assumption].
  - destruct H as [H|H].
    + left. apply in_or_app. left. assumption.
    + destruct (IH j x k H); [left; apply in_or_app; right; assumption | right; assumption].
Qed.

Lemma in_concat_replace_nth_inv :
  forall A (rems : list (list A)) j x k,
  In k (concat (replace_nth j x rems)) -> In k (concat rems) \/ In k x.
Proof.
  induction rems as [|r rems IH]; intros j x k H; [destruct j; simpl in H; contradiction|].
  destruct j; simpl in H; apply in_app_or in H.
  - destruct H; [right; assumption | left; apply in_or_app; right; assumption].
  - destruct H as [H|H]; [left; apply in_or_app; left; assumption|].
    destruct (IH j x k H); [left; apply in_or_app; right; assumption | right; assumption].
Qed.

Lemma in_concat_replace_nth_new :
  forall A (rems : list (list A)) j x k,
  j < length rems -> In k x -> In k (concat (replace_nth j x rems)).
Proof.
  induction rems as [|r rems IH]; intros j x k Hj H; simpl in *; [lia|].
  destruct j; simpl; apply in_or_app; [left; assumption|].
  right. apply IH; [lia | assumption].
Qed.

Lemma nth_nonempty_lt : forall A (l : list (list A)) j a r,
  nth j l [] = a :: r -> j < length l.
Proof.
  intros A l j a r H. destruct (Nat.lt_ge_cases j (length l)) as [Hl|Hl]; [exact Hl|].
  rewrite nth_overflow in H by exact Hl. discriminate.
Qed.

Lemma in_concat_nth : forall A (l : list (list A)) j k,
  In k (nth j l []) -> In k (concat l).
Proof.
  intros A l j k H. destruct (Nat.lt_ge_cases j (length l)) as [Hl|Hl].
  - apply in_concat. exists (nth j l []). split; [apply nth_In; exact Hl | exact H].
  - rewrite nth_overflow in H by exact Hl. contradiction.
Qed.

Section PhaseDeterminism.

Variable body : nat -> de_state -> step_result.
Variable stops : bool.
Variable upd : nat -> option flt * option candidate -> option flt * option candidate.
Variable att : nat -> option flt * option candidate -> bool.

Hypothesis body_return : forall i st st', body i st = Return st' ->
  stops = true /\ target_attained st = true /\ st' = st.
Hypothesis body_continue : forall i st st', body i st = Continue st' ->
  (forall k, slot st' k = if Nat.eqb k i then upd i (slot st i) else slot st k) /\
  target_attained st' = target_attained st || att i (slot st i).
Hypothesis upd_idem : forall i s, upd i (upd i s) = upd i s.
Hypothesis att_upd : forall i s, att i (upd i s) = true -> att i s = true.

Variable st0 : de_state.
Variable rems0 : list (list nat).

Local Abbreviation Inv P st := (phase_inv upd att stops st0 (concat rems0) P st).

Lemma inv_continue : forall P P' i st st',
  Inv P st -> In i P -> body i st = Continue st' ->
  (forall k, In k P -> k <> i -> In k P') -> incl P' P -> Inv P' st'.
Proof.
  intros P P' i st st' [D [H1 [H2 [H3 [H4 H5]]]]] Hi Hb HP HP'.
  destruct (body_continue _ _ _ Hb) as [Hsl Hfl].
  exists (fun k => D k || Nat.eqb k i). repeat split.
  - intros k. rewrite Hsl. destruct (Nat.eqb k i) eqn:Ek.
    + apply Nat.eqb_eq in Ek. subst k. rewrite orb_true_r, H1.
      destruct (D i); [apply upd_idem | reflexivity].
    + rewrite orb_false_r. apply H1.
  - rewrite Hfl. intros Hf. apply orb_true_iff in Hf as [Hf|Hf].
    + apply H2 in Hf as [Hf|[k [Hk Ha]]]; [left; exact Hf|].
      right. exists k. rewrite Hk. auto.
    + right. exists i. rewrite Nat.eqb_refl, orb_true_r. split; [reflexivity|].
      rewrite H1 in Hf. destruct (D i); [apply att_upd; exact Hf | exact Hf].
  - rewrite Hfl. intros [Hf|[k [Hk Ha]]].
    + rewrite (proj2 H2 (or_introl Hf)). reflexivity.
    + apply orb_true_iff in Hk as [Hk|Hk].
      * rewrite (proj2 H2 (or_intror (ex_intro _ k (conj Hk Ha)))). reflexivity.
      * apply Nat.eqb_eq in Hk. subst k. rewrite H1.
        destruct (D i) eqn:Di.
        -- rewrite (proj2 H2 (or_intror (ex_intro _ i (conj Di Ha)))). reflexivity.
        -- rewrite Ha, orb_true_r. reflexivity.
  - intros k Hk. apply orb_true_iff in Hk as [Hk|Hk]; [apply H3; exact Hk|].
    apply Nat.eqb_eq in Hk. subst k. apply H5. exact Hi.
  - intros k Hk Hd. apply orb_false_iff in Hd as [Hd Hki].
    destruct (H4 k Hk Hd) as [HkP|[Hs Hf]].
    + left. apply HP; [exact HkP|]. intros E. subst k. rewrite Nat.eqb_refl in Hki. discriminate.
    + right. split; [exact Hs|]. rewrite Hfl, Hf. reflexivity.
  - intros k Hk. apply H5, HP', Hk.
Qed.

Lemma inv_return : forall P Q i st st',
  Inv P st -> body i st = Return st' -> incl Q (concat rems0) -> Inv Q st'.
Proof.
  intros P Q i st st' [D [H1 [H2 [H3 [H4 H5]]]]] Hb HQ.
  destruct (body_return _ _ _ Hb) as [Hs [Hf ->]].
  exists D. repeat split; try apply H2; auto.
Qed.

Lemma inv_cancel : forall P st, Inv P st -> Inv P (set_cancelled st).
Proof.
  intros P st [D [H1 [H2 [H3 [H4 H5]]]]].
  exists D. split; [exact H1|]. split; [exact H2|]. split; [exact H3|].
  split; [exact H4 | exact H5].
Qed.

Lemma inv_mono : forall P P' st, Inv P st -> incl P P' -> incl P' (concat rems0) -> Inv P' st.
Proof.
  intros P P' st [D [H1 [H2 [H3 [H4 H5]]]]] HP HP'.
  exists D. repeat split; auto; [apply H2 | apply H2 |]; try assumption.
  intros k Hk Hd. destruct (H4 k Hk Hd) as [H|H]; [left; apply HP; exact H | right; exact H].
Qed.

Lemma run_events_inv : forall evs rems st,
  Inv (concat rems) st ->
  Inv (concat (fst (run_events body evs rems st))) (snd (run_events body evs rems st)).
Proof.
  induction evs as [|[j|] evs IH]; intros rems st H; simpl; [exact H | |].
  - destruct (nth j rems []) as [|i rem'] eqn:Hn; simpl.
    + apply IH. eapply inv_mono; [exact H | |].
      * intros k Hk. destruct (in_concat_replace_nth _ rems j [] k Hk) as [H'|H'];
          [exact H' | rewrite Hn in H'; contradiction].
      * intros k Hk. destruct (in_concat_replace_nth_inv _ rems j [] k Hk) as [H'|H'];
          [destruct H as [D [_ [_ [_ [_ H5]]]]]; apply H5; exact H' | contradiction].
    + pose proof (nth_nonempty_lt _ _ _ _ _ Hn) as Hj.
      assert (Hi : In i (concat rems)) by (apply (in_concat_nth _ rems j); rewrite Hn; left; reflexivity).
      destruct (body i st) as [st'|st'] eqn:Hb; apply IH.
      * eapply inv_continue; [exact H | exact Hi | exact Hb | |].
        -- intros k Hk Hki. destruct (in_concat_replace_nth _ rems j rem' k Hk) as [H'|H'];
             [exact H'|]. rewrite Hn in H'. destruct H' as [E|H']; [congruence|].
           apply in_concat_replace_nth_new; assumption.
        -- intros k Hk. destruct (in_concat_replace_nth_inv _ rems j rem' k Hk) as [H'|H'];
             [exact H'|]. apply (in_concat_nth _ rems j). rewrite Hn. right. exact H'.
      * eapply inv_return; [exact H | exact Hb |].
        intros k Hk. destruct (in_concat_replace_nth_inv _ rems j [] k Hk) as [H'|H'];
          [destruct H as [D [_ [_ [_ [_ H5]]]]]; apply H5; exact H' | contradiction].
  - apply IH. apply inv_cancel. exact H.
Qed.

Lemma run_worker_inv : forall rem P st, Inv (rem ++ P) st -> Inv P (run_worker body rem st).
Proof.
  induction rem as [|i rem IH]; intros P st H; simpl; [exact H|].
  destruct (body i st) as [st'|st'] eqn:Hb.
  - apply IH. eapply inv_continue; [exact H | left; reflexivity | exact Hb | |].
    + intros k [E|Hk] Hki; [congruence | exact Hk].
    + intros k Hk. right. exact Hk.
  - eapply inv_return; [exact H | exact Hb |].
    destruct H as [D [_ [_ [_ [_ H5]]]]]. intros k Hk. apply H5. simpl. right.
    apply in_or_app. right. exact Hk.
Qed.

Lemma join_inv : forall rems st, Inv (concat rems) st -> Inv [] (join body rems st).
Proof.
  unfold join. induction rems as [|rem rems IH]; intros st H; simpl; [exact H|].
  apply IH. apply run_worker_inv. exact H.
Qed.

Lemma phase_inv_end : forall evs, Inv [] (phase body rems0 evs st0).
Proof.
  intros evs. unfold phase.
  pose proof (run_events_inv evs rems0 st0) as H.
  destruct (run_events body evs rems0 st0) as [rems' st'] eqn:E. simpl in H.
  apply join_inv. apply H.
  exists (fun _ => false). split; [intros k; reflexivity|].
  split; [split; [intros Hf; left; exact Hf | intros [Hf|[k [Hk _]]]; [exact Hf | discriminate]]|].
  split; [intros k Hk; discriminate|].
  split; [intros k Hk _; left; exact Hk|].
  intros k Hk. exact Hk.
Qed.

Lemma phase_flag : forall evs,
  target_attained (phase body rems0 evs st0) = true <->
  target_attained st0 = true \/
  exists k, In k (concat rems0) /\ att k (slot st0 k) = true.
Proof.
  intros evs. destruct (phase_inv_end evs) as [D [H1 [H2 [H3 [H4 H5]]]]].
  split.
  - intros Hf. apply H2 in Hf as [Hf|[k [Hk Ha]]]; [left; exact Hf|].
    right. exists k. split; [apply H3; exact Hk | exact Ha].
  - intros [Hf|[k [Hk Ha]]]; [apply H2; left; exact Hf|].
    destruct (D k) eqn:Dk; [apply H2; right; exists k; auto|].
    destruct (H4 k Hk Dk) as [[]|[_ Hf]]. exact Hf.
Qed.

Lemma phase_slots : forall evs,
  (stops = false \/ target_attained (phase body rems0 evs st0) = false) ->
  forall k, slot (phase body rems0 evs st0) k =
            if in_dec Nat.eq_dec k (concat rems0) then upd k (slot st0 k) else slot st0 k.
Proof.
  intros evs Hs k. destruct (phase_inv_end evs) as [D [H1 [H2 [H3 [H4 H5]]]]].
  rewrite H1. destruct (in_dec Nat.eq_dec k (concat rems0)) as [Hk|Hk].
  - destruct (D k) eqn:Dk; [reflexivity|].
    destruct (H4 k Hk Dk) as [[]|[Hst Hf]].
    destruct Hs as [Hs|Hs]; congruence.
  - destruct (D k) eqn:Dk; [destruct Hk; apply H3; exact Dk | reflexivity].
Qed.

End PhaseDeterminism.

Lemma slot_replace_cost : forall st i c k,
  slot (mk_state (population st) (replace_nth i c (cost st)) (target_attained st)
                 (cancelled st) (queries st) (calls st)) k =
  if Nat.eqb k i then (option_map (fun _ => c) (nth_error (cost st) i), nth_error (population st) i)
  else slot st k.
Proof.
  intros st i c k. unfold slot. simpl. rewrite nth_error_replace_nth.
  destruct (Nat.eqb k i) eqn:E; [apply Nat.eqb_eq in E; subst k|]; reflexivity.
Qed.

Lemma initial_iteration_continue : forall f tv hq i st st',
  initial_iteration f tv hq i st = Continue st' ->
  (forall k, slot st' k = if Nat.eqb k i then initial_slot_update f i (slot st i) else slot st k) /\
  target_attained st' = target_attained st || initial_slot_attains f tv i (slot st i).
Proof.
  intros f tv hq i st st' H. unfold initial_iteration in H. injection H as <-.
  unfold initial_slot_update, initial_slot_attains. simpl.
  rewrite <- nth_as_error.
  destruct hq, (negb (isnan tv) && flt_le (f (nth i (population st) [])) tv); simpl;
    (split; [intros k; rewrite <- (slot_replace_cost st); reflexivity
            | rewrite ?orb_true_r, ?orb_false_r; reflexivity]).
Qed.

Lemma initial_iteration_return : forall f tv hq i st st',
  initial_iteration f tv hq i st = Return st' -> false = true /\ target_attained st = true /\ st' = st.
Proof. intros f tv hq i st st' H. discriminate H. Qed.

Lemma initial_slot_update_idem : forall f i s,
  initial_slot_update f i (initial_slot_update f i s) = initial_slot_update f i s.
Proof. intros f i [[c|] x]; reflexivity. Qed.

Lemma initial_slot_attains_update : forall f tv i s,
  initial_slot_attains f tv i (initial_slot_update f i s) = true ->
  initial_slot_attains f tv i s = true.
Proof. intros f tv i [c x]. exact (fun H => H). Qed.

Lemma trial_iteration_return : forall f tv hq trials i st st',
  trial_iteration f tv false hq trials i st = Return st' ->
  true = true /\ target_attained st = true /\ st' = st.
Proof.
  intros f tv hq trials i st st' H. unfold trial_iteration in H.
  destruct (target_attained st) eqn:Ht; [injection H as <-; auto|]. simpl in H.
  destruct (isnan (f (nth i trials []))); [discriminate|].
  destruct (flt_lt _ _ || isnan _); [|destruct hq; discriminate].
  destruct (negb (isnan tv) && _), hq; discriminate.
Qed.

Lemma trial_iteration_continue : forall f tv hq trials i st st',
  trial_iteration f tv false hq trials i st = Continue st' ->
  (forall k, slot st' k =
             if Nat.eqb k i then trial_slot_update f trials i (slot st i) else slot st k) /\
  target_attained st' = target_attained st || trial_slot_attains f tv trials i (slot st i).
Proof.
  intros f tv hq trials i st st' H. unfold trial_iteration in H.
  unfold trial_slot_update, trial_slot_attains, trial_accepts. simpl.
  rewrite <- (nth_as_error _ (cost st) i NaN).
  destruct (target_attained st) eqn:Ht; [discriminate|]. simpl in H.
  destruct (isnan (f (nth i trials []))) eqn:Hn.
  - injection H as <-. simpl. split; [|rewrite ?Ht, ?Hn; reflexivity].
    intros k. destruct (Nat.eqb k i) eqn:E; [apply Nat.eqb_eq in E; subst k|]; reflexivity.
  - simpl. assert (Hc : nth i (cost (if hq then push_query (nth i trials []) (f (nth i trials []))
                                               (count_call st) else count_call st)) NaN
                        = nth i (cost st) NaN) by (destruct hq; reflexivity).
    rewrite Hc in H.
    destruct (flt_lt (f (nth i trials [])) (nth i (cost st) NaN) || isnan (nth i (cost st) NaN)).
    + destruct (negb (isnan tv) && flt_le (f (nth i trials [])) tv) eqn:Ha;
        destruct hq; injection H as <-; simpl;
        (split; [| rewrite ?Ht, ?Hn; simpl; rewrite ?Ha; reflexivity]);
        intros k; unfold slot; simpl; rewrite !nth_error_replace_nth;
        (destruct (Nat.eqb k i) eqn:E; [apply Nat.eqb_eq in E; subst k|]; reflexivity).
    + destruct hq; injection H as <-; simpl; (split; [| rewrite ?Ht, ?Hn; reflexivity]);
        intros k; (destruct (Nat.eqb k i) eqn:E; [apply Nat.eqb_eq in E; subst k|]; reflexivity).
Qed.

Lemma flt_lt_irrefl : forall x, flt_lt x x = false.
Proof. intros [| | |q]; try reflexivity. simpl. unfold Qltb. apply Z.ltb_irrefl. Qed.

Lemma trial_slot_update_idem : forall f trials i s,
  trial_slot_update f trials i (trial_slot_update f trials i s) = trial_slot_update f trials i s.
Proof.
  intros f trials i [c x]. unfold trial_slot_update.
  destruct (trial_accepts f trials i (c, x)) eqn:Ha; [|rewrite Ha; reflexivity].
  unfold trial_accepts in *. simpl in *.
  destruct (isnan (f (nth i trials []))) eqn:Hn; [discriminate|].
  destruct c as [c|]; simpl.
  - rewrite flt_lt_irrefl, Hn. reflexivity.
  - rewrite orb_true_r. destruct x; reflexivity.
Qed.

Lemma trial_slot_attains_update : forall f tv trials i s,
  trial_slot_attains f tv trials i (trial_slot_update f trials i s) = true ->
  trial_slot_attains f tv trials i s = true.
Proof.
  intros f tv trials i [c x]. unfold trial_slot_update.
  destruct (trial_accepts f trials i (c, x)) eqn:Ha; [|exact (fun H => H)].
  unfold trial_slot_attains, trial_accepts in *. simpl in *.
  destruct (isnan (f (nth i trials []))) eqn:Hn; [discriminate|].
  destruct c as [c|]; simpl.
  - rewrite flt_lt_irrefl, Hn. discriminate.
  - exact (fun H => H).
Qed.

Lemma slots_equal : forall a b,
  (forall k, slot a k = slot b k) -> cost a = cost b /\ population a = population b.
Proof.
  intros a b H. split; apply nth_error_ext; intros k; specialize (H k); unfold slot in H;
    injection H; auto.
Qed.

Lemma trial_phase_flag : forall f tv hq sched p generation trials st,
  target_attained (trial_phase f tv false hq sched p generation trials st) = true <->
  target_attained st = true \/
  exists k, In k (concat (worker_lists (NP p) (threads p))) /\
            trial_slot_attains f tv trials k (slot st k) = true.
Proof.
  intros. unfold trial_phase.
  apply (phase_flag (trial_iteration f tv false hq trials) true (trial_slot_update f trials)
           (trial_slot_attains f tv trials)).
  - apply trial_iteration_return.
  - apply trial_iteration_continue.
  - apply trial_slot_update_idem.
  - apply trial_slot_attains_update.
Qed.

Lemma trial_phase_slots : forall f tv hq sched p generation trials st,
  target_attained (trial_phase f tv false hq sched p generation trials st) = false ->
  forall k, slot (trial_phase f tv false hq sched p generation trials st) k =
            if in_dec Nat.eq_dec k (concat (worker_lists (NP p) (threads p)))
            then trial_slot_update f trials k (slot st k) else slot st k.
Proof.
  intros f tv hq sched p generation trials st H. unfold trial_phase in *.
  apply (phase_slots (trial_iteration f tv false hq trials) true (trial_slot_update f trials)
           (trial_slot_attains f tv trials)).
  - apply trial_iteration_return.
  - apply trial_iteration_continue.
  - apply trial_slot_update_idem.
  - apply trial_slot_attains_update.
  - right. exact H.
Qed.

Lemma initial_phase_flag : forall f tv hq sched p st,
  target_attained (initial_phase f tv hq sched p st) = true <->
  target_attained st = true \/
  exists k, In k (concat (worker_lists (NP p) (threads p))) /\
            initial_slot_attains f tv k (slot st k) = true.
Proof.
  intros. unfold initial_phase.
  apply (phase_flag (initial_iteration f tv hq) false (initial_slot_update f)
           (initial_slot_attains f tv)).
  - apply initial_iteration_return.
  - apply initial_iteration_continue.
  - apply initial_slot_update_idem.
  - apply initial_slot_attains_update.
Qed.

Lemma initial_phase_slots : forall f tv hq sched p st k,
  slot (initial_phase f tv hq sched p st) k =
  if in_dec Nat.eq_dec k (concat (worker_lists (NP p) (threads p)))
  then initial_slot_update f k (slot st k) else slot st k.
Proof.
  intros f tv hq sched p st. unfold initial_phase.
  apply (phase_slots (initial_iteration f tv hq) false (initial_slot_update f)
           (initial_slot_attains f tv)).
  - apply initial_iteration_return.
  - apply initial_iteration_continue.
  - apply initial_slot_update_idem.
  - apply initial_slot_attains_update.
  - left. reflexivity.
Qed.

Lemma flag_iff_eq : forall a b P, (a = true <-> P) -> (b = true <-> P) -> a = b.
Proof. intros [] [] P Ha Hb; try reflexivity; [symmetry|]; apply Hb || apply Ha; tauto. Qed.

Lemma slot_agree : forall a b,
  population a = population b -> cost a = cost b -> forall k, slot a k = slot b k.
Proof. intros a b Hp Hc k. unfold slot. rewrite Hp, Hc. reflexivity. Qed.

Lemma generation_loop_schedule_free :
  forall f tv hq fuel s1 s2 p n generation st1 st2 g th ch,
  population st1 = population st2 -> cost st1 = cost st2 ->
  target_attained st1 = target_attained st2 ->
  let r1 := generation_loop f tv false hq fuel s1 p n generation st1 g th ch in
  let r2 := generation_loop f tv false hq fuel s2 p n generation st2 g th ch in
  fst (fst (fst r1)) = fst (fst (fst r2)) /\ snd (fst r1) = snd (fst r2) /\
  target_attained (snd (fst (fst r1))) = target_attained (snd (fst (fst r2))) /\
  (target_attained (snd (fst (fst r1))) = false ->
   cost (snd (fst (fst r1))) = cost (snd (fst (fst r2))) /\
   population (snd (fst (fst r1))) = population (snd (fst (fst r2))) /\ snd r1 = snd r2).
Proof.
  intros f tv hq fuel s1 s2 p n. induction n as [|n IH];
    intros generation st1 st2 g th ch Hp Hc Hf; simpl.
  - repeat split; auto.
  - rewrite Hf. destruct (target_attained st2) eqn:Ht2; [simpl; repeat split; auto; congruence|].
    rewrite Hp. destruct (trial_vectors p (population st2) fuel g) as [[trials g']|];
      [|simpl; repeat split; auto; congruence].
    pose proof (slot_agree _ _ Hp Hc) as Hs.
    set (a := trial_phase f tv false hq s1 p generation trials st1).
    set (b := trial_phase f tv false hq s2 p generation trials st2).
    assert (Hab : target_attained a = target_attained b).
    { apply (flag_iff_eq _ _ (target_attained st2 = true \/
               exists k, In k (concat (worker_lists (NP p) (threads p))) /\
                         trial_slot_attains f tv trials k (slot st2 k) = true)).
      - unfold a. rewrite trial_phase_flag.
        split; intros [H|[k [Hk Ha]]];
          [left; congruence | right; exists k; rewrite <- Hs; auto
          | left; congruence | right; exists k; rewrite Hs; auto].
      - apply trial_phase_flag. }
    destruct (target_attained b) eqn:Hb.
    + destruct n as [|n]; simpl; rewrite ?Hab, ?Hb; simpl; repeat split; auto;
        intros; congruence.
    + assert (Hsab : forall k, slot a k = slot b k).
      { pose proof Hab as Ha.
        intros k. unfold a, b in *.
        rewrite (trial_phase_slots _ _ _ _ _ _ _ _ Ha), (trial_phase_slots _ _ _ _ _ _ _ _ Hb).
        rewrite Hs. reflexivity. }
      destruct (slots_equal _ _ Hsab) as [Hca Hpa].
      rewrite Hca. apply IH; congruence.
Qed.

Lemma generation_loop_no_target :
  forall f tv hq fuel sched p n generation st g th ch,
  isnan tv = true -> target_attained st = false ->
  target_attained (snd (fst (fst (generation_loop f tv false hq fuel sched p n generation
                                                  st g th ch)))) = false.
Proof.
  intros f tv hq fuel sched p n. induction n as [|n IH];
    intros generation st g th ch Htv Ht; simpl; [exact Ht|].
  rewrite Ht. destruct (trial_vectors p (population st) fuel g) as [[trials g']|];
    [|exact Ht].
  apply IH; [exact Htv|].
  destruct (target_attained (trial_phase f tv false hq sched p generation trials st)) eqn:E;
    [|reflexivity].
  apply trial_phase_flag in E as [E|[k [_ Ha]]]; [congruence|].
  unfold trial_slot_attains in Ha. rewrite Htv, andb_false_r in Ha. discriminate.
Qed.

Lemma initial_state_flag : forall init p g,
  target_attained (fst (initial_state init p g)) = false.
Proof.
  intros init p g. unfold initial_state.
  destruct (init (lower_bounds p) (upper_bounds p) (NP p) g). reflexivity.
Qed.

Lemma initial_phase_schedule_free : forall f tv hq s1 s2 p st,
  population (initial_phase f tv hq s1 p st) = population (initial_phase f tv hq s2 p st) /\
  cost (initial_phase f tv hq s1 p st) = cost (initial_phase f tv hq s2 p st) /\
  target_attained (initial_phase f tv hq s1 p st) = target_attained (initial_phase f tv hq s2 p st).
Proof.
  intros f tv hq s1 s2 p st.
  assert (Hs : forall k, slot (initial_phase f tv hq s1 p st) k = slot (initial_phase f tv hq s2 p st) k)
    by (intros k; rewrite !initial_phase_slots; reflexivity).
  destruct (slots_equal _ _ Hs) as [Hc Hp].
  split; [exact Hp|]. split; [exact Hc|].
  apply (flag_iff_eq _ _ _ (initial_phase_flag f tv hq s1 p st) (initial_phase_flag f tv hq s2 p st)).
Qed.

Lemma initial_phase_no_target : forall f tv hq sched p st,
  isnan tv = true -> target_attained st = false ->
  target_attained (initial_phase f tv hq sched p st) = false.
Proof.
  intros f tv hq sched p st Htv Ht.
  destruct (target_attained (initial_phase f tv hq sched p st)) eqn:E; [|reflexivity].
  apply initial_phase_flag in E as [E|[k [_ Ha]]]; [congruence|].
  unfold initial_slot_attains in Ha. rewrite Htv in Ha. discriminate.
Qed.

(** C3 (as amended): without a cancellation flag, for the same generator,
    parameters and deterministic objective, the trial vectors of every
    generation do not depend on the interleaving of the workers [s1] or [s2];
    when no target value is given (NaN), neither do the returned candidate
    and the final cost vector. *)
Theorem trial_history_schedule_free :
  forall init f tv hq fuel s1 s2 p g,
  trial_history (differential_evolution init f tv false hq fuel s1 p g) =
  trial_history (differential_evolution init f tv false hq fuel s2 p g) /\
  (isnan tv = true ->
   outcome (differential_evolution init f tv false hq fuel s1 p g) =
   outcome (differential_evolution init f tv false hq fuel s2 p g) /\
   cost (final_state (differential_evolution init f tv false hq fuel s1 p g)) =
   cost (final_state (differential_evolution init f tv false hq fuel s2 p g))).
Proof.
  intros init f tv hq fuel s1 s2 p g. unfold differential_evolution.
  destruct (validate_differential_evolution_parameters p); [split; auto|].
  pose proof (initial_state_flag init p g) as H0.
  destruct (initial_state init p g) as [st0 g1]. simpl in H0.
  destruct (initial_phase_schedule_free f tv hq s1 s2 p st0) as [Hp [Hc Hf]].
  pose proof (generation_loop_schedule_free f tv hq fuel s1 s2 p (max_generations p) 0
                _ _ g1 [] [cost (initial_phase f tv hq s1 p st0)] Hp Hc Hf) as H.
  pose proof (generation_loop_no_target f tv hq fuel s1 p (max_generations p) 0
                (initial_phase f tv hq s1 p st0) g1 [] [cost (initial_phase f tv hq s1 p st0)]) as Hn.
  pose proof (initial_phase_no_target f tv hq s1 p st0) as Hi.
  rewrite <- Hc. cbv zeta in H.
  destruct (generation_loop f tv false hq fuel s1 p _ _ _ _ _ _) as [[[d1 r1] th1] ch1].
  destruct (generation_loop f tv false hq fuel s2 p _ _ _ _ _ _) as [[[d2 r2] th2] ch2].
  simpl in *. destruct H as [Hd [Hth [Hfl Hr]]].
  split; [exact Hth|]. intros Htv.
  destruct (Hr (Hn Htv (Hi Htv H0))) as [Hcr [Hpr _]].
  subst d2. rewrite Hcr, Hpr. split; reflexivity.
Qed.

(** C3 counterexample: with target value 1/2, the interleaving in which
    worker 0 runs first returns the candidate 1/2 with costs
    [1/4; 25/4; 9; 1], and the one in which worker 1 runs first returns 0
    with costs [4; 0; 9; 1], though both build the same trial vectors. *)
Lemma target_race_changes_result :
  trial_history (race_run worker0_first) = trial_history (race_run worker1_first) /\
  outcome (race_run worker0_first) = Returned [Fin (1 # 2)] /\
  cost (final_state (race_run worker0_first)) = [Fin (1 # 4); Fin (25 # 4); Fin 9; Fin 1] /\
  outcome (race_run worker1_first) = Returned [Fin 0] /\
  cost (final_state (race_run worker1_first)) = [Fin 4; Fin 0; Fin 9; Fin 1].
Proof. repeat split; vm_compute; reflexivity. Qed.

(** C3 witness: with no target value, the two interleavings of the race
    setting give the same outcome and the same final costs. *)
Lemma trial_history_schedule_free_witness :
  isnan NaN = true /\
  outcome (differential_evolution random_initial_population square NaN false false
             10 worker0_first (params_1d 1 None) (replay race_stream)) =
  outcome (differential_evolution random_initial_population square NaN false false
             10 worker1_first (params_1d 1 None) (replay race_stream)) /\
  cost (final_state (differential_evolution random_initial_population square NaN false false
             10 worker0_first (params_1d 1 None) (replay race_stream))) =
  cost (final_state (differential_evolution random_initial_population square NaN false false
             10 worker1_first (params_1d 1 None) (replay race_stream))).
Proof.
  split; [reflexivity|].
  apply (proj2 (trial_history_schedule_free random_initial_population square NaN false 10
                  worker0_first worker1_first (params_1d 1 None) (replay race_stream))).
  reflexivity.
Defined.


Section PhasePreserves.

Variable body : nat -> de_state -> step_result.
Variable Q : de_state -> Prop.
Hypothesis body_Q : forall i st, Q st -> Q (result_state (body i st)).
Hypothesis cancel_Q : forall st, Q st -> Q (set_cancelled st).

Lemma run_events_preserves : forall evs rems st, Q st -> Q (snd (run_events body evs rems st)).
Proof.
  induction evs as [|[j|] evs IH]; intros rems st H; simpl; [exact H | |].
  - destruct (nth j rems []) as [|i rem']; simpl; [apply IH; exact H|].
    pose proof (body_Q i st H) as Hb.
    destruct (body i st); apply IH; exact Hb.
  - apply IH, cancel_Q, H.
Qed.

Lemma run_worker_preserves : forall rem st, Q st -> Q (run_worker body rem st).
Proof.
  induction rem as [|i rem IH]; intros st H; simpl; [exact H|].
  pose proof (body_Q i st H) as Hb.
  destruct (body i st); [apply IH|]; exact Hb.
Qed.

Lemma phase_preserves : forall rems evs st, Q st -> Q (phase body rems evs st).
Proof.
  intros rems evs st H. unfold phase.
  pose proof (run_events_preserves evs rems st H) as H1.
  destruct (run_events body evs rems st) as [rems' st']. simpl in H1.
  unfold join. revert st' H1. induction rems' as [|rem rems' IH]; intros st' H1; simpl;
    [exact H1|].
  apply IH, run_worker_preserves, H1.
Qed.

End PhasePreserves.

Lemma Qltb_false : forall x y, Qltb x y = false <-> (y <= x)%Q.
Proof. intros x y. unfold Qltb, Qle. rewrite Z.ltb_ge. reflexivity. Qed.

Lemma Qltb_true : forall x y, Qltb x y = true <-> (x < y)%Q.
Proof. intros x y. unfold Qltb, Qlt. rewrite Z.ltb_lt. reflexivity. Qed.

Lemma flt_le_trans : forall a b c, flt_le a b = true -> flt_le b c = true -> flt_le a c = true.
Proof.
  intros [| | |x] [| | |y] [| | |z]; simpl; auto; try discriminate.
  rewrite !negb_true_iff, !Qltb_false. intros H1 H2. eapply Qle_trans; eassumption.
Qed.

Lemma flt_lt_asym : forall a b, flt_lt a b = true -> flt_lt b a = false.
Proof.
  intros [| | |x] [| | |y]; simpl; auto; try discriminate.
  rewrite Qltb_true, Qltb_false. apply Qlt_le_weak.
Qed.

Lemma flt_lt_le : forall a b, flt_lt a b = true -> flt_le a b = true.
Proof.
  intros a b H. pose proof (flt_lt_asym a b H) as H'.
  destruct a, b; simpl in *; try discriminate; rewrite ?H'; reflexivity.
Qed.

Lemma sent_le_refl : forall a, sent_le a a = true.
Proof.
  intros [| | |q]; unfold sent_le; simpl; auto. unfold Qltb. rewrite Z.ltb_irrefl. reflexivity.
Qed.

Lemma sent_le_trans : forall a b c, sent_le a b = true -> sent_le b c = true -> sent_le a c = true.
Proof.
  intros a b c. unfold sent_le.
  destruct (isnan c) eqn:Hc; [reflexivity|].
  destruct (isnan b) eqn:Hb; [simpl; discriminate|].
  destruct (isnan a) eqn:Ha; [simpl; discriminate|].
  simpl. apply flt_le_trans.
Qed.

Lemma fmin_le_l : forall a b, sent_le (fmin a b) a = true.
Proof.
  intros a b. unfold fmin.
  destruct (isnan a) eqn:Ha; [unfold sent_le; rewrite Ha; reflexivity|].
  destruct (isnan b) eqn:Hb; [apply sent_le_refl|].
  destruct (flt_lt b a) eqn:Hl; [|apply sent_le_refl].
  unfold sent_le. rewrite Ha, Hb. simpl. apply flt_lt_le. exact Hl.
Qed.

Lemma fmin_le_r : forall a b, sent_le (fmin a b) b = true.
Proof.
  intros a b. unfold fmin.
  destruct (isnan a) eqn:Ha; [apply sent_le_refl|].
  destruct (isnan b) eqn:Hb; [unfold sent_le; rewrite Hb; reflexivity|].
  destruct (flt_lt b a) eqn:Hl; [apply sent_le_refl|].
  unfold sent_le. rewrite Ha, Hb. simpl.
  destruct a, b; simpl in *; try discriminate; rewrite ?Hl; reflexivity.
Qed.

Lemma fmin_cases : forall a b, fmin a b = a \/ fmin a b = b.
Proof.
  intros a b. unfold fmin. destruct (isnan a); [auto|]. destruct (isnan b); [auto|].
  destruct (flt_lt b a); auto.
Qed.

Lemma min_cost_mono : forall new old,
  Forall2 (fun n o => sent_le n o = true) new old ->
  sent_le (min_cost new) (min_cost old) = true.
Proof.
  intros new old H. induction H as [|n o new old Hno Hl IH]; [reflexivity|].
  simpl. destruct (fmin_cases o (min_cost old)) as [E|E]; rewrite E.
  - eapply sent_le_trans; [apply fmin_le_l | exact Hno].
  - eapply sent_le_trans; [apply fmin_le_r | exact IH].
Qed.

Lemma Forall2_sent_le_refl : forall l, Forall2 (fun n o => sent_le n o = true) l l.
Proof. induction l; constructor; [apply sent_le_refl | assumption]. Qed.

Lemma Forall2_sent_le_trans : forall a b c,
  Forall2 (fun n o => sent_le n o = true) a b ->
  Forall2 (fun n o => sent_le n o = true) b c ->
  Forall2 (fun n o => sent_le n o = true) a c.
Proof.
  intros a b c H1. revert c. induction H1 as [|x y a b Hxy H IH]; intros c H2;
    inversion H2; subst; constructor; [eapply sent_le_trans; eassumption | apply IH; assumption].
Qed.

Lemma Forall2_replace_nth : forall l i x,
  sent_le x (nth i l NaN) = true ->
  Forall2 (fun n o => sent_le n o = true) (replace_nth i x l) l.
Proof.
  induction l as [|y l IH]; intros i x H; destruct i; simpl in *; constructor;
    try apply sent_le_refl; try apply Forall2_sent_le_refl; auto.
Qed.

Lemma trial_iteration_cost_le : forall f tv hc hq trials i st,
  Forall2 (fun n o => sent_le n o = true)
          (cost (result_state (trial_iteration f tv hc hq trials i st))) (cost st).
Proof.
  intros f tv hc hq trials i st. unfold trial_iteration.
  destruct (target_attained st); [apply Forall2_sent_le_refl|].
  destruct (hc && cancelled st); [apply Forall2_sent_le_refl|].
  destruct (isnan (f (nth i trials []))) eqn:Hn; [apply Forall2_sent_le_refl|].
  assert (Hc : nth i (cost (if hq then push_query (nth i trials []) (f (nth i trials []))
                                         (count_call st) else count_call st)) NaN
               = nth i (cost st) NaN) by (destruct hq; reflexivity).
  rewrite Hc.
  destruct (flt_lt (f (nth i trials [])) (nth i (cost st) NaN) || isnan (nth i (cost st) NaN))
    eqn:Hs; [|destruct hq; apply Forall2_sent_le_refl].
  assert (Hle : sent_le (f (nth i trials [])) (nth i (cost st) NaN) = true).
  { unfold sent_le. rewrite Hn. apply orb_true_iff in Hs as [Hs|Hs].
    - simpl. rewrite flt_lt_le by exact Hs. apply orb_true_r.
    - rewrite Hs. reflexivity. }
  destruct (negb (isnan tv) && _), hq; simpl; apply Forall2_replace_nth; exact Hle.
Qed.

Lemma trial_phase_cost_le : forall f tv hc hq sched p generation trials st,
  Forall2 (fun n o => sent_le n o = true)
          (cost (trial_phase f tv hc hq sched p generation trials st)) (cost st).
Proof.
  intros f tv hc hq sched p generation trials st. unfold trial_phase.
  apply (phase_preserves _ (fun st' => Forall2 (fun n o => sent_le n o = true) (cost st') (cost st))).
  - intros i st' H. eapply Forall2_sent_le_trans; [apply trial_iteration_cost_le | exact H].
  - intros st' H. exact H.
  - apply Forall2_sent_le_refl.
Qed.

Lemma consecutive_snoc : forall A (R : A -> A -> Prop) l x y,
  consecutive R (l ++ [x]) -> R x y -> consecutive R (l ++ [x; y]).
Proof.
  intros A R l. induction l as [|a l IH]; intros x y H Hxy; simpl in *; [auto|].
  destruct l as [|b l]; simpl in *; [tauto|].
  destruct H as [H1 H2]. split; [exact H1|]. apply (IH x y H2 Hxy).
Qed.

Lemma generation_loop_no_regression :
  forall f tv hc hq fuel sched p n generation st g th pre,
  consecutive no_regression (pre ++ [cost st]) ->
  consecutive no_regression
    (snd (generation_loop f tv hc hq fuel sched p n generation st g th (pre ++ [cost st]))).
Proof.
  intros f tv hc hq fuel sched p n. induction n as [|n IH];
    intros generation st g th pre H; simpl; [exact H|].
  destruct (hc && cancelled st); [exact H|]. destruct (target_attained st); [exact H|].
  destruct (trial_vectors p (population st) fuel g) as [[trials g']|]; [|exact H].
  apply IH. rewrite <- app_assoc. simpl. apply consecutive_snoc; [exact H|].
  split; [apply trial_phase_cost_le|]. apply min_cost_mono, trial_phase_cost_le.
Qed.

(** C7: between two consecutive recorded cost vectors of a run, no slot's
    cost grows and the minimum cost does not grow (the NaN sentinel of a slot
    not yet evaluated counts as the largest cost). *)
Theorem costs_never_regress :
  forall init f tv hc hq fuel sched p g,
  consecutive no_regression
    (cost_history (differential_evolution init f tv hc hq fuel sched p g)).
Proof.
  intros init f tv hc hq fuel sched p g. unfold differential_evolution.
  destruct (validate_differential_evolution_parameters p); [exact I|].
  destruct (initial_state init p g) as [st0 g1].
  pose proof (generation_loop_no_regression f tv hc hq fuel sched p (max_generations p) 0
                (initial_phase f tv hq sched p st0) g1 [] [] I) as H.
  simpl in H.
  destruct (generation_loop _ _ _ _ _ _ _ _ _ _ _ _ _) as [[[d st] th] ch]. exact H.
Qed.


Lemma trial_iteration_shape : forall f tv hc hq trials i st,
  (population (result_state (trial_iteration f tv hc hq trials i st)) = population st \/
   population (result_state (trial_iteration f tv hc hq trials i st))
   = replace_nth i (nth i trials []) (population st)) /\
  (cost (result_state (trial_iteration f tv hc hq trials i st)) = cost st \/
   exists c, cost (result_state (trial_iteration f tv hc hq trials i st))
             = replace_nth i c (cost st)).
Proof.
  intros f tv hc hq trials i st. unfold trial_iteration.
  destruct (target_attained st); [auto|]. destruct (hc && cancelled st); [auto|].
  destruct (isnan (f (nth i trials []))); [auto|].
  destruct hq; simpl; (destruct (_ || _); [|auto]);
    (destruct (negb (isnan tv) && _); simpl; eauto).
Qed.

Lemma initial_iteration_shape : forall f tv hq i st,
  population (result_state (initial_iteration f tv hq i st)) = population st /\
  exists c, cost (result_state (initial_iteration f tv hq i st)) = replace_nth i c (cost st).
Proof.
  intros f tv hq i st. unfold initial_iteration.
  destruct hq, (negb (isnan tv) && _); simpl; eauto.
Qed.

Lemma in_bounds_nth : forall lb ub x j,
  in_bounds lb ub x = true -> j < length lb ->
  flt_le (nth j lb NaN) (nth j x NaN) && flt_le (nth j x NaN) (nth j ub NaN) = true.
Proof.
  intros lb ub x j H Hj. unfold in_bounds in H. apply andb_true_iff in H as [_ H].
  rewrite forallb_forall in H. apply H. apply in_seq. lia.
Qed.

Lemma in_bounds_length : forall lb ub x, in_bounds lb ub x = true -> length x = length lb.
Proof.
  intros lb ub x H. unfold in_bounds in H. apply andb_true_iff in H as [H _].
  apply Nat.eqb_eq, H.
Qed.

Lemma in_bounds_intro : forall lb ub x,
  length x = length lb ->
  (forall j, j < length lb ->
   flt_le (nth j lb NaN) (nth j x NaN) && flt_le (nth j x NaN) (nth j ub NaN) = true) ->
  in_bounds lb ub x = true.
Proof.
  intros lb ub x Hl H. unfold in_bounds. rewrite Hl, Nat.eqb_refl. simpl.
  apply forallb_forall. intros j Hj. apply in_seq in Hj. apply H. lia.
Qed.

Lemma flt_le_not_nan : forall a b, flt_le a b = true -> isnan a = false /\ isnan b = false.
Proof. intros [| | |x] [| | |y]; simpl; auto; discriminate. Qed.

Lemma flt_le_lt : forall a b, isnan a = false -> isnan b = false -> flt_le a b = negb (flt_lt b a).
Proof. intros [| | |x] [| | |y]; simpl; auto; discriminate. Qed.

Lemma flt_le_refl : forall a, isnan a = false -> flt_le a a = true.
Proof. intros a H. rewrite flt_le_lt, flt_lt_irrefl by exact H. reflexivity. Qed.

Lemma clamp_in_bounds : forall v l u,
  flt_le l u = true -> isnan v = false ->
  flt_le l (clamp v l u) && flt_le (clamp v l u) u = true.
Proof.
  intros v l u Hlu Hv. destruct (flt_le_not_nan _ _ Hlu) as [Hl Hu].
  unfold clamp. destruct (flt_lt v l) eqn:E1.
  - rewrite flt_le_refl by exact Hl. exact Hlu.
  - destruct (flt_lt u v) eqn:E2.
    + rewrite Hlu, flt_le_refl by exact Hu. reflexivity.
    + rewrite !flt_le_lt, E1, E2 by assumption. reflexivity.
Qed.

Lemma between_finite : forall l v u,
  isfinite l = true -> isfinite u = true -> flt_le l v = true -> flt_le v u = true ->
  isfinite v = true.
Proof. intros [| | |x] [| | |y] [| | |z]; simpl; auto; discriminate. Qed.

Lemma length_replace_nth : forall A (l : list A) i x, length (replace_nth i x l) = length l.
Proof. induction l; destruct i; simpl; auto. Qed.

Lemma Forall_replace_nth : forall A (P : A -> Prop) l i x,
  Forall P l -> (i < length l -> P x) -> Forall P (replace_nth i x l).
Proof.
  intros A P l. induction l as [|y l IH]; intros i x H Hx; destruct i; simpl; auto;
    inversion H; subst; constructor; auto.
  - apply Hx. simpl. lia.
  - apply IH; [assumption | intros; apply Hx; simpl; lia].
Qed.

Lemma Forall2_nth_lt : forall A B (R : A -> B -> Prop) l1 l2 n d1 d2,
  Forall2 R l1 l2 -> n < length l1 -> R (nth n l1 d1) (nth n l2 d2).
Proof.
  intros A B R l1 l2 n d1 d2 H. revert n. induction H; intros n Hn; simpl in *; [lia|].
  destruct n; [assumption | apply IHForall2; lia].
Qed.

Lemma min_element_from_lt : forall l k best bv, best < k -> min_element_from l k best bv < k + length l.
Proof.
  induction l as [|x l IH]; intros k best bv H; simpl; [lia|].
  destruct (flt_lt x bv).
  - specialize (IH (S k) k x ltac:(lia)). lia.
  - specialize (IH (S k) best bv ltac:(lia)). lia.
Qed.

Lemma min_element_lt : forall l, l <> [] -> min_element l < length l.
Proof.
  intros [|x l] H; [congruence|]. unfold min_element.
  pose proof (min_element_from_lt l 1 0 x ltac:(lia)). simpl. lia.
Qed.

Section Bounds.

Variable p : de_params.
Hypothesis valid : validate_differential_evolution_parameters p = None.
Hypothesis finite_bounds :
  forallb isfinite (lower_bounds p) && forallb isfinite (upper_bounds p) = true.

Local Abbreviation lb := (lower_bounds p).
Local Abbreviation ub := (upper_bounds p).
Local Abbreviation inb x := (in_bounds (lower_bounds p) (upper_bounds p) x = true).

Lemma valid_bounds : validate_bounds lb ub = None.
Proof.
  pose proof valid as H. unfold validate_differential_evolution_parameters in H.
  destruct (validate_bounds lb ub); [discriminate | reflexivity].
Qed.

Lemma valid_NP : 4 <= NP p.
Proof.
  pose proof valid as H. unfold validate_differential_evolution_parameters in H.
  rewrite valid_bounds in H. destruct (Nat.ltb (NP p) 4) eqn:E; [discriminate|].
  apply Nat.ltb_ge, E.
Qed.

Lemma valid_F : isfinite (mutation_factor p) = true.
Proof.
  pose proof valid as H. unfold validate_differential_evolution_parameters in H.
  rewrite valid_bounds in H. destruct (Nat.ltb (NP p) 4); [discriminate|].
  destruct (mutation_factor p); simpl in H; try discriminate; reflexivity.
Qed.

Lemma valid_guess : forall x, initial_guess p = Some x -> inb x.
Proof.
  intros x Hx. pose proof valid as H. unfold validate_differential_evolution_parameters in H.
  rewrite valid_bounds, Hx in H.
  destruct (Nat.ltb (NP p) 4); [discriminate|].
  destruct (_ || _ || _); [discriminate|]. destruct (Nat.ltb (max_generations p) 1); [discriminate|].
  destruct (validate_initial_guess x lb ub) eqn:Hg; [discriminate|].
  pose proof valid_bounds as Hb. unfold validate_bounds in Hb.
  destruct (negb (Nat.eqb (length lb) (length ub))) eqn:Hlu; [discriminate|].
  apply negb_false_iff, Nat.eqb_eq in Hlu.
  unfold validate_initial_guess in Hg.
  destruct (negb (Nat.eqb (length x) (length lb))) eqn:Hxl; [discriminate|].
  apply negb_false_iff, Nat.eqb_eq in Hxl.
  destruct (existsb _ _) eqn:He; [discriminate|].
  apply in_bounds_intro; [exact Hxl|]. intros j Hj.
  assert (Hlen : j < length (combine x (combine lb ub)))
    by (rewrite !length_combine; lia).
  pose proof (@existsb_nth _ _ _ j (NaN, (NaN, NaN)) Hlen He) as Hj'.
  rewrite combine_nth in Hj' by (rewrite length_combine; lia).
  rewrite combine_nth in Hj' by exact Hlu.
  apply negb_false_iff in Hj'. exact Hj'.
Qed.

Lemma valid_le : forall j, j < length lb -> flt_le (nth j lb NaN) (nth j ub NaN) = true.
Proof.
  intros j Hj. pose proof valid_bounds as Hb. unfold validate_bounds in Hb.
  destruct (negb (Nat.eqb (length lb) (length ub))) eqn:Hlu; [discriminate|].
  apply negb_false_iff, Nat.eqb_eq in Hlu.
  destruct (existsb _ _) eqn:He; [discriminate|].
  assert (Hlen : j < length (combine lb ub)) by (rewrite length_combine; lia).
  pose proof (@existsb_nth _ _ _ j (NaN, NaN) Hlen He) as Hj'.
  rewrite combine_nth in Hj' by exact Hlu.
  apply andb_true_iff in finite_bounds as [Hfl Hfu].
  rewrite forallb_forall in Hfl, Hfu.
  pose proof (Hfl _ (nth_In lb NaN Hj)) as Fl.
  pose proof (Hfu _ (@nth_In _ j ub NaN ltac:(lia))) as Fu.
  destruct (nth j lb NaN) as [| | |x], (nth j ub NaN) as [| | |y];
    simpl in *; try discriminate.
  apply negb_false_iff in Hj'. rewrite Qltb_true in Hj'.
  apply negb_true_iff, Qltb_false, Qlt_le_weak, Hj'.
Qed.

Lemma in_bounds_finite : forall x j, inb x -> j < length lb -> isfinite (nth j x NaN) = true.
Proof.
  intros x j Hx Hj. apply andb_true_iff in finite_bounds as [Hfl Hfu].
  rewrite forallb_forall in Hfl, Hfu.
  pose proof (valid_bounds) as Hb. unfold validate_bounds in Hb.
  destruct (negb (Nat.eqb (length lb) (length ub))) eqn:Hlu; [discriminate|].
  apply negb_false_iff, Nat.eqb_eq in Hlu.
  pose proof (in_bounds_nth _ _ _ _ Hx Hj) as Hxj. apply andb_true_iff in Hxj as [H1 H2].
  eapply between_finite; [apply Hfl, nth_In, Hj | apply Hfu, (@nth_In _ j ub NaN); lia | exact H1 | exact H2].
Qed.

Section BoundedTrials.

Variable population : list candidate.
Hypothesis pop_len : length population = NP p.
Hypothesis pop_in : Forall (fun x => inb x) population.

Lemma coord_finite : forall k j, k < NP p -> j < length lb -> isfinite (coord population k j) = true.
Proof.
  intros k j Hk Hj. unfold coord. apply in_bounds_finite; [|exact Hj].
  rewrite Forall_forall in pop_in. apply pop_in, nth_In. lia.
Qed.

Lemma crossover_in_bounds : forall i r1 r2 r3 js g v g',
  i < NP p -> r1 < NP p -> r2 < NP p -> r3 < NP p ->
  (forall j, In j js -> j < length lb) ->
  crossover p population i r1 r2 r3 js g = Some (v, g') ->
  Forall2 (fun j x => flt_le (nth j lb NaN) x && flt_le x (nth j ub NaN) = true) js v.
Proof.
  intros i r1 r2 r3 js. induction js as [|j js IH]; intros g v g' Hi H1 H2 H3 Hjs Hc.
  - simpl in Hc. unfold ret in Hc. injection Hc as <- _. constructor.
  - simpl in Hc. unfold bind, gen_call, unif01, bind, gen_call, ret in Hc. simpl in Hc.
    destruct (crossover p population i r1 r2 r3 js _) as [[rest g2]|] eqn:Er; [|discriminate].
    injection Hc as <- _.
    assert (Hj : j < length lb) by (apply Hjs; left; reflexivity).
    constructor.
    + destruct (_ || _).
      * apply clamp_in_bounds; [apply valid_le, Hj|].
        pose proof (coord_finite r1 j H1 Hj). pose proof (coord_finite r2 j H2 Hj).
        pose proof (coord_finite r3 j H3 Hj). pose proof valid_F.
        unfold mutant. destruct (coord population r1 j), (coord population r2 j),
          (coord population r3 j), (mutation_factor p); simpl in *; try discriminate;
          reflexivity.
      * unfold coord. apply in_bounds_nth; [|exact Hj].
        rewrite Forall_forall in pop_in. apply pop_in, nth_In. lia.
    + eapply IH; try eassumption. intros j' Hj'. apply Hjs. right. exact Hj'.
Qed.

Lemma make_trial_in_bounds : forall fuel i g t g',
  i < NP p -> make_trial p population fuel i g = Some (t, g') -> inb t.
Proof.
  intros fuel i g t g' Hi H. unfold make_trial, draw_mutation_indices, bind in H.
  destruct (draw_index fuel (NP p) [i] g) as [[r1 g1]|] eqn:E1; [|discriminate].
  destruct (draw_index fuel (NP p) [i; r1] g1) as [[r2 g2]|] eqn:E2; [|discriminate].
  destruct (draw_index fuel (NP p) [i; r2; r1] g2) as [[r3 g3]|] eqn:E3; [|discriminate].
  unfold ret in H.
  assert (Hr : forall fuel excl g r g', draw_index fuel (NP p) excl g = Some (r, g') -> r < NP p).
  { intros fuel' excl g0 r g0' Hd. destruct (draw_index_sound _ _ _ _ _ _ Hd) as [_ [_ [k ->]]].
    apply residue_lt. pose proof valid_NP. lia. }
  pose proof (crossover_in_bounds i r1 r2 r3 (seq 0 (dimension p)) g3 t g' Hi
                (Hr _ _ _ _ _ E1) (Hr _ _ _ _ _ E2) (Hr _ _ _ _ _ E3)
                ltac:(intros j Hj; apply in_seq in Hj; unfold dimension in Hj; lia) H) as HF.
  apply in_bounds_intro.
  - rewrite <- (Forall2_length HF), length_seq. reflexivity.
  - intros j Hj. pose proof (Forall2_nth_lt _ _ _ _ _ j 0 NaN HF) as Hn.
    assert (Hd : j < dimension p) by exact Hj.
    rewrite length_seq, seq_nth in Hn by exact Hd. apply Hn. exact Hd.
Qed.

Lemma make_trials_in_bounds : forall fuel is g ts g',
  (forall i, In i is -> i < NP p) ->
  make_trials p population fuel is g = Some (ts, g') ->
  Forall (fun x => inb x) ts /\ length ts = length is.
Proof.
  intros fuel. induction is as [|i is IH]; intros g ts g' His H; simpl in H.
  - unfold ret in H. injection H as <- _. auto.
  - unfold bind in H.
    destruct (make_trial p population fuel i g) as [[t g1]|] eqn:Et; [|discriminate].
    destruct (make_trials p population fuel is g1) as [[ts' g2]|] eqn:Ets; [|discriminate].
    unfold ret in H. injection H as <- _.
    destruct (IH g1 ts' g2 ltac:(intros; apply His; right; assumption) Ets) as [HF HL].
    split; [constructor; [eapply make_trial_in_bounds; [apply His; left; reflexivity | exact Et] | exact HF]|].
    simpl. lia.
Qed.

Lemma trial_vectors_in_bounds : forall fuel g ts g',
  trial_vectors p population fuel g = Some (ts, g') ->
  Forall (fun x => inb x) ts /\ length ts = NP p.
Proof.
  intros fuel g ts g' H. unfold trial_vectors in H.
  destruct (make_trials_in_bounds fuel (seq 0 (NP p)) g ts g'
              ltac:(intros i Hi; apply in_seq in Hi; lia) H) as [HF HL].
  rewrite length_seq in HL. auto.
Qed.

End BoundedTrials.

Lemma trial_phase_in_bounds : forall f tv hc hq sched generation trials st,
  state_in_bounds p st -> Forall (fun x => inb x) trials -> length trials = NP p ->
  state_in_bounds p (trial_phase f tv hc hq sched p generation trials st).
Proof.
  intros f tv hc hq sched generation trials st Hst Ht Hl. unfold trial_phase.
  apply phase_preserves; [| intros st' H; exact H | exact Hst].
  intros i st' [H1 [H2 H3]].
  destruct (trial_iteration_shape f tv hc hq trials i st') as [Hp Hc].
  split; [|split].
  - destruct Hp as [-> | ->]; rewrite ?length_replace_nth; exact H1.
  - destruct Hc as [-> | [c ->]]; rewrite ?length_replace_nth; exact H2.
  - destruct Hp as [-> | ->]; [exact H3|]. apply Forall_replace_nth; [exact H3|].
    intros Hi. rewrite Forall_forall in Ht. apply Ht, nth_In. lia.
Qed.

Lemma initial_phase_in_bounds : forall f tv hq sched st,
  state_in_bounds p st -> state_in_bounds p (initial_phase f tv hq sched p st).
Proof.
  intros f tv hq sched st Hst. unfold initial_phase.
  apply phase_preserves; [| intros st' H; exact H | exact Hst].
  intros i st' [H1 [H2 H3]].
  destruct (initial_iteration_shape f tv hq i st') as [Hp [c Hc]].
  unfold state_in_bounds. rewrite Hp, Hc, length_replace_nth. auto.
Qed.

Lemma generation_loop_in_bounds :
  forall f tv hc hq fuel sched n generation st g th ch,
  state_in_bounds p st -> Forall (Forall (fun x => inb x)) th ->
  state_in_bounds p (snd (fst (fst (generation_loop f tv hc hq fuel sched p n generation st g th ch)))) /\
  Forall (Forall (fun x => inb x)) (snd (fst (generation_loop f tv hc hq fuel sched p n generation st g th ch))).
Proof.
  intros f tv hc hq fuel sched n. induction n as [|n IH];
    intros generation st g th ch Hst Hth; simpl; [auto|].
  destruct (hc && cancelled st); [auto|]. destruct (target_attained st); [auto|].
  destruct (trial_vectors p (population st) fuel g) as [[trials g']|] eqn:Et; [|auto].
  destruct Hst as [H1 [H2 H3]].
  destruct (trial_vectors_in_bounds _ H1 H3 _ _ _ _ Et) as [HF HL].
  apply IH.
  - apply trial_phase_in_bounds; auto. split; auto.
  - apply Forall_app. split; [exact Hth | constructor; [exact HF | constructor]].
Qed.

End Bounds.

(** C6: with valid parameters, finite bounds and an initial population of
    [NP] candidates within the bounds, every candidate of the final
    population, every trial vector and the returned candidate lie within
    [lower_bounds] and [upper_bounds] in every dimension. *)
Theorem candidates_stay_in_bounds :
  forall init f tv hc hq fuel sched p g,
  validate_differential_evolution_parameters p = None ->
  forallb isfinite (lower_bounds p) && forallb isfinite (upper_bounds p) = true ->
  length (fst (init (lower_bounds p) (upper_bounds p) (NP p) g)) = NP p ->
  forallb (in_bounds (lower_bounds p) (upper_bounds p))
          (fst (init (lower_bounds p) (upper_bounds p) (NP p) g)) = true ->
  Forall (fun x => in_bounds (lower_bounds p) (upper_bounds p) x = true)
         (population (final_state (differential_evolution init f tv hc hq fuel sched p g))) /\
  Forall (Forall (fun x => in_bounds (lower_bounds p) (upper_bounds p) x = true))
         (trial_history (differential_evolution init f tv hc hq fuel sched p g)) /\
  (forall x, outcome (differential_evolution init f tv hc hq fuel sched p g) = Returned x ->
   in_bounds (lower_bounds p) (upper_bounds p) x = true).
Proof.
  intros init f tv hc hq fuel sched p g Hv Hfin Hlen Hin.
  assert (H0 : state_in_bounds p (fst (initial_state init p g))).
  { unfold initial_state. destruct (init _ _ _ g) as [pop0 g1]. cbn [fst] in *.
    split; [|split]; cbn [population cost].
    - destruct (initial_guess p); rewrite ?length_replace_nth; exact Hlen.
    - apply repeat_length.
    - assert (Hp0 : Forall (fun x => in_bounds (lower_bounds p) (upper_bounds p) x = true) pop0)
        by (apply Forall_forall; rewrite forallb_forall in Hin; exact Hin).
      destruct (initial_guess p) as [x|] eqn:Hg; [|exact Hp0].
      apply Forall_replace_nth; [exact Hp0|]. intros _. eapply valid_guess; eassumption. }
  unfold differential_evolution. rewrite Hv.
  destruct (initial_state init p g) as [st0 g1]. simpl in H0.
  pose proof (initial_phase_in_bounds p f tv hq sched st0 H0) as H1.
  destruct (generation_loop_in_bounds p Hv Hfin f tv hc hq fuel sched (max_generations p) 0 _ g1 []
              [cost (initial_phase f tv hq sched p st0)] H1 (Forall_nil _)) as [H2 H3].
  destruct (generation_loop _ _ _ _ _ _ _ _ _ _ _ _ _) as [[[d st] th] ch]. simpl in *.
  destruct H2 as [Hp [Hc Hb]].
  split; [exact Hb|]. split; [exact H3|].
  intros x Hx. destruct d; [discriminate|]. injection Hx as <-.
  rewrite Forall_forall in Hb. apply Hb, nth_In. rewrite Hp, <- Hc. apply min_element_lt.
  intros E. rewrite E in Hc. simpl in Hc. pose proof (valid_NP p Hv). lia.
Qed.

(** C6 witness: the two-worker run of [race_run]. *)
Lemma candidates_stay_in_bounds_witness :
  validate_differential_evolution_parameters (params_1d 1 None) = None /\
  forallb isfinite (lower_bounds (params_1d 1 None)) &&
  forallb isfinite (upper_bounds (params_1d 1 None)) = true /\
  length (fst (random_initial_population (lower_bounds (params_1d 1 None))
                 (upper_bounds (params_1d 1 None)) (NP (params_1d 1 None)) (replay race_stream)))
  = NP (params_1d 1 None) /\
  forallb (in_bounds (lower_bounds (params_1d 1 None)) (upper_bounds (params_1d 1 None)))
          (fst (random_initial_population (lower_bounds (params_1d 1 None))
                 (upper_bounds (params_1d 1 None)) (NP (params_1d 1 None)) (replay race_stream)))
  = true /\
  (Forall (fun x => in_bounds (lower_bounds (params_1d 1 None)) (upper_bounds (params_1d 1 None)) x = true)
     (population (final_state (race_run worker1_first))) /\
   Forall (Forall (fun x => in_bounds (lower_bounds (params_1d 1 None)) (upper_bounds (params_1d 1 None)) x = true))
     (trial_history (race_run worker1_first)) /\
   (forall x, outcome (race_run worker1_first) = Returned x ->
    in_bounds (lower_bounds (params_1d 1 None)) (upper_bounds (params_1d 1 None)) x = true)).
Proof.
  split; [vm_compute; reflexivity|]. split; [vm_compute; reflexivity|].
  split; [vm_compute; reflexivity|]. split; [vm_compute; reflexivity|].
  apply candidates_stay_in_bounds; vm_compute; reflexivity.
Defined.

(** * Further properties of the code *)

Lemma in_stride_from : forall fuel i step n x,
  In x (stride_from fuel i step n) <-> exists k, k < fuel /\ x = i + k * step /\ x < n.
Proof.
  induction fuel as [|fuel IH]; intros i step n x; simpl.
  - split; [contradiction | intros [k [Hk _]]; lia].
  - destruct (Nat.ltb i n) eqn:Hi.
    + apply Nat.ltb_lt in Hi. simpl. rewrite IH. split.
      * intros [<-|[k [Hk [-> Hx]]]]; [exists 0; split; [lia | split; lia]|].
        exists (S k). split; [lia | split; [simpl; lia | exact Hx]].
      * intros [[|k] [Hk [-> Hx]]]; [left; lia|]. right.
        exists k. split; [lia | split; [simpl; lia | exact Hx]].
    + apply Nat.ltb_ge in Hi. split; [contradiction | intros [k [_ [-> Hx]]]; lia].
Qed.

Lemma in_worker_indices : forall n t j x, 1 <= t -> j < t ->
  In x (worker_indices n t j) <-> x < n /\ x mod t = j.
Proof.
  intros n t j x Ht Hj. unfold worker_indices. rewrite in_stride_from. split.
  - intros [k [_ [-> Hx]]]. split; [exact Hx|].
    rewrite Nat.Div0.mod_add. apply Nat.mod_small. exact Hj.
  - intros [Hx Hm]. exists (x / t).
    pose proof (Nat.div_mod x t ltac:(lia)) as Hd.
    assert (x / t <= x) by (apply Nat.Div0.div_le_upper_bound; nia).
    split; [lia | split; [lia | exact Hx]].
Qed.

Lemma stride_from_ge : forall fuel i step n x, In x (stride_from fuel i step n) -> i <= x.
Proof. intros fuel i step n x H. apply in_stride_from in H as [k [_ [-> _]]]. lia. Qed.

Lemma stride_from_nodup : forall fuel i step n, 1 <= step -> NoDup (stride_from fuel i step n).
Proof.
  induction fuel as [|fuel IH]; intros i step n Hs; simpl; [constructor|].
  destruct (Nat.ltb i n); [|constructor]. constructor; [|apply IH; exact Hs].
  intros H. apply stride_from_ge in H. lia.
Qed.

Lemma worker_lists_nodup_from : forall n t m s, 1 <= t -> s + m <= t ->
  NoDup (concat (map (worker_indices n t) (seq s m))).
Proof.
  intros n t m. induction m as [|m IH]; intros s Ht Hm; simpl; [constructor|].
  apply NoDup_app; [apply stride_from_nodup; exact Ht | apply IH; lia|].
  intros x Hx Hr. apply in_worker_indices in Hx as [_ Hx]; [|lia|lia].
  apply in_concat in Hr as [l [Hl Hr]]. apply in_map_iff in Hl as [j [<- Hj]].
  apply in_seq in Hj. apply in_worker_indices in Hr as [_ Hr]; lia.
Qed.

Lemma in_worker_lists : forall n t x, 1 <= t ->
  In x (concat (worker_lists n t)) <-> x < n.
Proof.
  intros n t x Ht. unfold worker_lists. rewrite in_concat. split.
  - intros [l [Hl Hx]]. apply in_map_iff in Hl as [j [<- Hj]]. apply in_seq in Hj.
    apply in_worker_indices in Hx; lia.
  - intros Hx. exists (worker_indices n t (x mod t)). split.
    + apply in_map. apply in_seq. pose proof (Nat.mod_upper_bound x t ltac:(lia)). lia.
    + apply in_worker_indices; [lia | apply Nat.mod_upper_bound; lia | split; auto].
Qed.

Lemma worker_lists_perm : forall n t, 1 <= t ->
  Permutation (concat (worker_lists n t)) (seq 0 n).
Proof.
  intros n t Ht. apply NoDup_Permutation; [apply worker_lists_nodup_from; lia | apply seq_NoDup|].
  intros x. rewrite in_worker_lists by exact Ht. rewrite in_seq. lia.
Qed.

Lemma worker_lists_length : forall n t, 1 <= t -> length (concat (worker_lists n t)) = n.
Proof.
  intros n t Ht. rewrite (Permutation_length (worker_lists_perm n t Ht)). apply length_seq.
Qed.

(** X1: the worker index lists of a phase split [0, n) among [t >= 1] workers:
    their concatenation is a permutation of [0, ..., n-1], and worker [j] gets
    exactly the indices [x < n] with [x mod t = j]. *)
Theorem worker_lists_partition : forall n t, 1 <= t ->
  Permutation (concat (worker_lists n t)) (seq 0 n) /\
  (forall j x, j < t -> (In x (worker_indices n t j) <-> x < n /\ x mod t = j)).
Proof.
  intros n t Ht. split; [apply worker_lists_perm; exact Ht|].
  intros j x Hj. apply in_worker_indices; assumption.
Qed.

(** X1 witness: four indices over two workers. *)
Lemma worker_lists_partition_witness :
  1 <= 2 /\
  Permutation (concat (worker_lists 4 2)) (seq 0 4) /\
  (forall j x, j < 2 -> (In x (worker_indices 4 2 j) <-> x < 4 /\ x mod 2 = j)).
Proof. split; [lia|]. apply (worker_lists_partition 4 2). lia. Defined.

Lemma replace_nth_nth_self : forall A (l : list A) j d,
  j < length l -> replace_nth j (nth j l d) l = l.
Proof. induction l as [|a l IH]; intros j d Hj; simpl in Hj; [lia|]. destruct j; simpl; [reflexivity|].
  f_equal. apply IH. lia. Qed.

Lemma replace_nth_out : forall A (l : list A) j x, length l <= j -> replace_nth j x l = l.
Proof. induction l as [|a l IH]; intros j x Hj; destruct j; simpl in *; try reflexivity; [lia|].
  f_equal. apply IH. lia. Qed.

Lemma length_concat_replace_nth : forall A (rems : list (list A)) j x,
  j < length rems ->
  length (concat (replace_nth j x rems)) + length (nth j rems []) = length (concat rems) + length x.
Proof.
  induction rems as [|r rems IH]; intros j x Hj; simpl in *; [lia|].
  destruct j; simpl; rewrite !length_app; [lia|].
  specialize (IH j x ltac:(lia)). lia.
Qed.

Section PhaseCalls.

Variable body : nat -> de_state -> step_result.
Variable Q : de_state -> Prop.
Hypothesis body_Q : forall i st, Q st -> Q (result_state (body i st)).
Hypothesis cancel_Q : forall st, Q st -> Q (set_cancelled st).
Hypothesis body_calls : forall i st, Q st ->
  match body i st with
  | Continue st' => calls st' = S (calls st)
  | Return st' => calls st' = calls st
  end.





Hypothesis body_continues : forall i st st', Q st -> body i st <> Return st'.

Lemma run_events_calls_eq : forall evs rems st, Q st ->
  Q (snd (run_events body evs rems st)) /\
  calls (snd (run_events body evs rems st)) + length (concat (fst (run_events body evs rems st)))
  = calls st + length (concat rems).
Proof.
  induction evs as [|[j|] evs IH]; intros rems st H; simpl; [split; [exact H | lia]| |].
  - destruct (nth j rems []) as [|i rem'] eqn:E; simpl.
    + destruct (Nat.lt_ge_cases j (length rems)) as [Hl|Hl].
      * rewrite <- E, replace_nth_nth_self by exact Hl. apply IH. exact H.
      * rewrite replace_nth_out by exact Hl. apply IH. exact H.
    + pose proof (nth_nonempty_lt _ _ _ _ _ E) as Hl.
      pose proof (body_Q i st H) as Hq. pose proof (body_calls i st H) as Hc.
      pose proof (length_concat_replace_nth _ rems j rem' Hl) as L1.
      rewrite E in L1. simpl in L1.
      destruct (body i st) as [st'|st'] eqn:Eb; simpl in Hq.
      * destruct (IH (replace_nth j rem' rems) st' Hq) as [Hq' Hle]; split; [exact Hq'|]; lia.
      * exfalso. exact (body_continues i st st' H Eb).
  - destruct (IH rems (set_cancelled st) (cancel_Q st H)) as [Hq Hle].
    split; [exact Hq|]. simpl in Hle. exact Hle.
Qed.

Lemma run_worker_calls_eq : forall rem st, Q st ->
  Q (run_worker body rem st) /\ calls (run_worker body rem st) = calls st + length rem.
Proof.
  induction rem as [|i rem IH]; intros st H; simpl; [split; [exact H | lia]|].
  pose proof (body_Q i st H) as Hq. pose proof (body_calls i st H) as Hc.
  destruct (body i st) as [st'|st'] eqn:Eb; simpl in Hq.
  - destruct (IH st' Hq) as [Hq' Hle]. split; [exact Hq' | lia].
  - exfalso. exact (body_continues i st st' H Eb).
Qed.

Lemma join_calls_eq : forall rems st, Q st ->
  Q (join body rems st) /\ calls (join body rems st) = calls st + length (concat rems).
Proof.
  unfold join. induction rems as [|rem rems IH]; intros st H; simpl; [split; [exact H | lia]|].
  destruct (run_worker_calls_eq rem st H) as [Hq Hle].
  destruct (IH _ Hq) as [Hq' Hle']. rewrite length_app. split; [exact Hq' | lia].
Qed.

Lemma phase_calls_eq : forall rems evs st, Q st ->
  calls (phase body rems evs st) = calls st + length (concat rems).
Proof.
  intros rems evs st H. unfold phase.
  destruct (run_events_calls_eq evs rems st H) as [Hq Hle].
  destruct (run_events body evs rems st) as [rems' st']. simpl in *.
  destruct (join_calls_eq rems' st' Hq) as [_ Hj]. lia.
Qed.

End PhaseCalls.

Lemma initial_iteration_calls : forall f tv hq i st,
  match initial_iteration f tv hq i st with
  | Continue st' => calls st' = S (calls st)
  | Return st' => calls st' = calls st
  end.
Proof. intros f tv hq i st. unfold initial_iteration. destruct hq, (_ && _); reflexivity. Qed.

Lemma initial_phase_calls : forall f tv hq sched p st, 1 <= threads p ->
  calls (initial_phase f tv hq sched p st) = calls st + NP p.
Proof.
  intros f tv hq sched p st Ht. unfold initial_phase.
  rewrite (phase_calls_eq (initial_iteration f tv hq) (fun _ => True)); try tauto.
  - rewrite worker_lists_length by exact Ht. reflexivity.
  - intros i st' _. apply initial_iteration_calls.
  - intros i st0 st' _ H. discriminate H.
Qed.

Lemma trial_iteration_calls : forall f tv hc hq trials i st,
  match trial_iteration f tv hc hq trials i st with
  | Continue st' => calls st' = S (calls st)
  | Return st' => calls st' = calls st
  end.
Proof.
  intros f tv hc hq trials i st. unfold trial_iteration.
  destruct (target_attained st); [reflexivity|]. destruct (hc && cancelled st); [reflexivity|].
  destruct (isnan _); [reflexivity|].
  destruct hq; simpl; (destruct (_ || _); [|reflexivity]); destruct (_ && _); reflexivity.
Qed.


Lemma trial_iteration_no_target : forall f tv hq trials i st,
  isnan tv = true -> target_attained st = false ->
  target_attained (result_state (trial_iteration f tv false hq trials i st)) = false /\
  forall st', trial_iteration f tv false hq trials i st <> Return st'.
Proof.
  intros f tv hq trials i st Htv Ht. unfold trial_iteration. rewrite Ht. simpl.
  destruct (isnan (f (nth i trials []))); [split; [exact Ht | discriminate]|].
  destruct hq; simpl; (destruct (_ || _); simpl; rewrite ?Htv; simpl;
    split; solve [exact Ht | discriminate]).
Qed.

Lemma trial_phase_calls_eq : forall f tv hq sched p generation trials st, 1 <= threads p ->
  isnan tv = true -> target_attained st = false ->
  calls (trial_phase f tv false hq sched p generation trials st) = calls st + NP p.
Proof.
  intros f tv hq sched p generation trials st Ht Htv H0. unfold trial_phase.
  rewrite (phase_calls_eq _ (fun st => target_attained st = false));
    [|intros i st' H; apply trial_iteration_no_target; assumption
     |intros st' H; exact H
     |intros; apply trial_iteration_calls
     |intros i st' st'' H; apply trial_iteration_no_target; assumption
     |exact H0].
  rewrite worker_lists_length by exact Ht. reflexivity.
Qed.

Lemma initial_phase_scores : forall f tv hq sched p st,
  1 <= threads p -> length (population st) = NP p -> length (cost st) = NP p ->
  population (initial_phase f tv hq sched p st) = population st /\
  cost (initial_phase f tv hq sched p st) = map f (population st) /\
  calls (initial_phase f tv hq sched p st) = calls st + NP p.
Proof.
  intros f tv hq sched p st Ht Hp Hc.
  assert (Hs := initial_phase_slots f tv hq sched p st).
  split; [|split; [|apply initial_phase_calls; exact Ht]].
  - apply nth_error_ext. intros k. specialize (Hs k). unfold slot in Hs.
    destruct (in_dec _ _ _); injection Hs as _ Hs; exact Hs.
  - apply nth_error_ext. intros k. specialize (Hs k). unfold slot in Hs.
    rewrite nth_error_map.
    destruct (in_dec Nat.eq_dec k (concat (worker_lists (NP p) (threads p)))) as [Hk|Hk];
      injection Hs as Hs _; rewrite Hs.
    + apply in_worker_lists in Hk; [|exact Ht].
      unfold initial_slot_update. simpl.
      destruct (nth_error (cost st) k) eqn:E1; [|apply nth_error_None in E1; lia].
      destruct (nth_error (population st) k) eqn:E2; [reflexivity|apply nth_error_None in E2; lia].
    + assert (NP p <= k) by (destruct (Nat.lt_ge_cases k (NP p)) as [Hl|Hl];
                              [destruct Hk; apply in_worker_lists; assumption | exact Hl]).
      rewrite (proj2 (nth_error_None (cost st) k)) by lia.
      rewrite (proj2 (nth_error_None (population st) k)) by lia. reflexivity.
Qed.

(** X2: the initial scoring phase, on a population and cost vector of length
    [NP] with at least one worker, leaves the population unchanged, sets
    [cost] to the objective of every candidate, and makes exactly [NP]
    objective calls, whatever the interleaving. *)
Theorem initial_scoring_evaluates_all : forall f tv hq sched p st,
  1 <= threads p -> length (population st) = NP p -> length (cost st) = NP p ->
  population (initial_phase f tv hq sched p st) = population st /\
  cost (initial_phase f tv hq sched p st) = map f (population st) /\
  calls (initial_phase f tv hq sched p st) = calls st + NP p.
Proof. exact initial_phase_scores. Qed.

(** X2 witness: the initial state of the race setting, two workers. *)
Lemma initial_scoring_evaluates_all_witness :
  1 <= threads (params_1d 1 None) /\
  length (population (fst (initial_state random_initial_population (params_1d 1 None) (replay race_stream)))) = NP (params_1d 1 None) /\
  length (cost (fst (initial_state random_initial_population (params_1d 1 None) (replay race_stream)))) = NP (params_1d 1 None) /\
  population (initial_phase square NaN false worker0_first (params_1d 1 None) (fst (initial_state random_initial_population (params_1d 1 None) (replay race_stream)))) = population (fst (initial_state random_initial_population (params_1d 1 None) (replay race_stream))) /\
  cost (initial_phase square NaN false worker0_first (params_1d 1 None) (fst (initial_state random_initial_population (params_1d 1 None) (replay race_stream)))) = map square (population (fst (initial_state random_initial_population (params_1d 1 None) (replay race_stream)))) /\
  calls (initial_phase square NaN false worker0_first (params_1d 1 None) (fst (initial_state random_initial_population (params_1d 1 None) (replay race_stream)))) = calls (fst (initial_state random_initial_population (params_1d 1 None) (replay race_stream))) + NP (params_1d 1 None).
Proof.
  assert (Ht : 1 <= threads (params_1d 1 None)) by (simpl; lia).
  assert (Hp : length (population (fst (initial_state random_initial_population (params_1d 1 None) (replay race_stream)))) = NP (params_1d 1 None)) by (vm_compute; reflexivity).
  assert (Hc : length (cost (fst (initial_state random_initial_population (params_1d 1 None) (replay race_stream)))) = NP (params_1d 1 None)) by (vm_compute; reflexivity).
  split; [exact Ht|]. split; [exact Hp|]. split; [exact Hc|].
  exact (initial_scoring_evaluates_all square NaN false worker0_first (params_1d 1 None) (fst (initial_state random_initial_population (params_1d 1 None) (replay race_stream))) Ht Hp Hc).
Defined.

Lemma valid_threads : forall p,
  validate_differential_evolution_parameters p = None -> 1 <= threads p.
Proof.
  intros p H. unfold validate_differential_evolution_parameters in H. cbv zeta in H.
  repeat match type of H with
         | context [match ?x with _ => _ end] => destruct x eqn:?; try discriminate
         | context [if ?x then _ else _] => destruct x eqn:?; try discriminate
         end.
  match goal with E : Nat.eqb (threads p) 0 = false |- _ => apply Nat.eqb_neq in E end. lia.
Qed.

Lemma initial_state_shape : forall init p g,
  population (fst (initial_state init p g)) =
    (match initial_guess p with
     | Some x => replace_nth 0 x (fst (init (lower_bounds p) (upper_bounds p) (NP p) g))
     | None => fst (init (lower_bounds p) (upper_bounds p) (NP p) g)
     end) /\
  cost (fst (initial_state init p g)) = repeat NaN (NP p) /\
  target_attained (fst (initial_state init p g)) = false /\
  cancelled (fst (initial_state init p g)) = false /\
  queries (fst (initial_state init p g)) = [] /\
  calls (fst (initial_state init p g)) = 0.
Proof.
  intros init p g. unfold initial_state.
  destruct (init (lower_bounds p) (upper_bounds p) (NP p) g). simpl. auto 7.
Qed.

Lemma initial_state_length : forall init p g,
  length (fst (init (lower_bounds p) (upper_bounds p) (NP p) g)) = NP p ->
  length (population (fst (initial_state init p g))) = NP p.
Proof.
  intros init p g H. rewrite (proj1 (initial_state_shape init p g)).
  destruct (initial_guess p); rewrite ?length_replace_nth; exact H.
Qed.

(** ** The generation loop *)


Lemma generation_loop_counts_exact :
  forall f tv hq fuel sched p n generation st g th ch, 1 <= threads p ->
  isnan tv = true -> target_attained st = false ->
  let r := generation_loop f tv false hq fuel sched p n generation st g th ch in
  fst (fst (fst r)) = false ->
  length (snd (fst r)) = length th + n /\
  calls (snd (fst (fst r))) = calls st + NP p * n.
Proof.
  intros f tv hq fuel sched p n. induction n as [|n IH];
    intros generation st g th ch Ht Htv H0; simpl; [lia|].
  rewrite H0. destruct (trial_vectors p (population st) fuel g) as [[trials g']|];
    [|simpl; discriminate].
  intros Hd.
  pose proof (trial_phase_calls_eq f tv hq sched p generation trials st Ht Htv H0) as Hc.
  assert (H1 : target_attained (trial_phase f tv false hq sched p generation trials st) = false).
  { destruct (target_attained (trial_phase f tv false hq sched p generation trials st)) eqn:E;
      [|reflexivity].
    apply trial_phase_flag in E as [E|[k [_ Ha]]]; [congruence|].
    unfold trial_slot_attains in Ha. rewrite Htv, andb_false_r in Ha. discriminate. }
  destruct (IH (S generation) _ g' (th ++ [trials])
               (ch ++ [cost (trial_phase f tv false hq sched p generation trials st)]) Ht Htv H1 Hd)
    as [Hl Hc'].
  rewrite length_app in Hl. simpl in Hl. split; lia.
Qed.


(** X4: with valid parameters, no target value (NaN), no cancellation flag and
    no exhausted rejection loop, a run performs all [max_generations]
    generations and calls the objective exactly [NP * (1 + max_generations)]
    times. *)
Theorem full_run_counts :
  forall init f tv hq fuel sched p g,
  validate_differential_evolution_parameters p = None -> isnan tv = true ->
  let r := differential_evolution init f tv false hq fuel sched p g in
  outcome r <> Diverged ->
  length (trial_history r) = max_generations p /\
  calls (final_state r) = NP p * (1 + max_generations p).
Proof.
  intros init f tv hq fuel sched p g Hv Htv. cbv zeta. unfold differential_evolution. rewrite Hv.
  pose proof (valid_threads p Hv) as Ht.
  pose proof (initial_state_shape init p g) as [_ [_ [Hf0 [_ [_ Hc0]]]]].
  destruct (initial_state init p g) as [st0 g1]. simpl in Hc0, Hf0.
  pose proof (initial_phase_calls f tv hq sched p st0 Ht) as Hc1.
  pose proof (initial_phase_no_target f tv hq sched p st0 Htv Hf0) as Hf1.
  pose proof (generation_loop_counts_exact f tv hq fuel sched p (max_generations p) 0
                (initial_phase f tv hq sched p st0) g1 [] [cost (initial_phase f tv hq sched p st0)]
                Ht Htv Hf1) as H. cbv zeta in H.
  destruct (generation_loop _ _ _ _ _ _ _ _ _ _ _ _ _) as [[[d st] th] ch]. simpl in *.
  intros Hd. destruct d; [contradiction Hd; reflexivity|].
  destruct (H eq_refl) as [Hl Hc]. simpl. split; lia.
Qed.

(** X4 witness: the race setting without a target value. *)
Lemma full_run_counts_witness :
  validate_differential_evolution_parameters (params_1d 1 None) = None /\
  isnan NaN = true /\
  outcome (differential_evolution random_initial_population square NaN false false 10 worker0_first (params_1d 1 None) (replay race_stream)) <> Diverged /\
  length (trial_history (differential_evolution random_initial_population square NaN false false 10 worker0_first (params_1d 1 None) (replay race_stream))) = max_generations (params_1d 1 None) /\
  calls (final_state (differential_evolution random_initial_population square NaN false false 10 worker0_first (params_1d 1 None) (replay race_stream))) = NP (params_1d 1 None) * (1 + max_generations (params_1d 1 None)).
Proof.
  assert (Hv : validate_differential_evolution_parameters (params_1d 1 None) = None) by (vm_compute; reflexivity).
  assert (Hd : outcome (differential_evolution random_initial_population square NaN false false 10 worker0_first (params_1d 1 None) (replay race_stream)) <> Diverged) by (vm_compute; discriminate).
  split; [exact Hv|]. split; [reflexivity|]. split; [exact Hd|].
  exact (full_run_counts random_initial_population square NaN false 10 worker0_first (params_1d 1 None) (replay race_stream)
           Hv eq_refl Hd).
Defined.

(** ** Costs agree with the population *)


Lemma Forall2_replace_nth2 : forall A B (R : A -> B -> Prop) l1 l2 i x y,
  Forall2 R l1 l2 -> R x y -> Forall2 R (replace_nth i x l1) (replace_nth i y l2).
Proof.
  intros A B R l1 l2 i x y H. revert i. induction H as [|a b l1 l2 Hab H IH]; intros i Hxy;
    destruct i; simpl; constructor; auto.
Qed.

Lemma trial_iteration_agree : forall f tv hc hq trials i st,
  costs_agree f st -> costs_agree f (result_state (trial_iteration f tv hc hq trials i st)).
Proof.
  intros f tv hc hq trials i st H. unfold trial_iteration.
  destruct (target_attained st); [exact H|]. destruct (hc && cancelled st); [exact H|].
  destruct (isnan (f (nth i trials []))); [exact H|].
  unfold costs_agree in *.
  destruct hq; simpl; (destruct (_ || _); [|exact H]);
    destruct (_ && _); simpl; apply Forall2_replace_nth2; auto.
Qed.

Lemma generation_loop_preserves :
  forall (Q : de_state -> Prop) f tv hc hq fuel sched p,
  (forall generation trials st, Q st -> Q (trial_phase f tv hc hq sched p generation trials st)) ->
  forall n generation st g th ch, Q st ->
  Q (snd (fst (fst (generation_loop f tv hc hq fuel sched p n generation st g th ch)))).
Proof.
  intros Q f tv hc hq fuel sched p HQ n. induction n as [|n IH];
    intros generation st g th ch H; simpl; [exact H|].
  destruct (hc && cancelled st); [exact H|]. destruct (target_attained st); [exact H|].
  destruct (trial_vectors p (population st) fuel g) as [[trials g']|]; [|exact H].
  apply IH, HQ, H.
Qed.

Lemma trial_phase_agree : forall f tv hc hq sched p generation trials st,
  costs_agree f st -> costs_agree f (trial_phase f tv hc hq sched p generation trials st).
Proof.
  intros. unfold trial_phase. apply (phase_preserves _ (costs_agree f)); [|intros st' Hs; exact Hs|assumption].
  intros i st' Hs. apply trial_iteration_agree. exact Hs.
Qed.

Lemma Forall2_nth_error_l : forall A B (R : A -> B -> Prop) l1 l2 k x,
  Forall2 R l1 l2 -> nth_error l1 k = Some x -> exists y, nth_error l2 k = Some y /\ R x y.
Proof.
  intros A B R l1 l2 k x H. revert k. induction H as [|a b l1 l2 Hab H IH]; intros k Hk;
    destruct k; simpl in *; try discriminate; [injection Hk as <-; eauto | apply IH; exact Hk].
Qed.

Lemma Forall2_map_self : forall (f : candidate -> flt) (l : list candidate), Forall2 (fun x c => c = f x) l (map f l).
Proof. intros f l. induction l; simpl; constructor; auto. Qed.

Lemma run_costs_agree :
  forall init f tv hc hq fuel sched p g,
  length (fst (init (lower_bounds p) (upper_bounds p) (NP p) g)) = NP p ->
  let r := differential_evolution init f tv hc hq fuel sched p g in
  Forall2 (fun x c => c = f x) (population (final_state r)) (cost (final_state r)) /\
  (forall x, outcome r = Returned x ->
   exists k, k = min_element (cost (final_state r)) /\ k < NP p /\
             nth_error (population (final_state r)) k = Some x /\
             nth_error (cost (final_state r)) k = Some (f x)).
Proof.
  intros init f tv hc hq fuel sched p g Hlen. cbv zeta. unfold differential_evolution.
  destruct (validate_differential_evolution_parameters p) eqn:Hv;
    [split; [constructor | discriminate]|].
  pose proof (valid_threads p Hv) as Ht.
  pose proof (initial_state_length init p g Hlen) as Hp0.
  pose proof (initial_state_shape init p g) as [_ [Hc0 _]].
  destruct (initial_state init p g) as [st0 g1]. simpl in Hp0, Hc0.
  destruct (initial_phase_scores f tv hq sched p st0 Ht Hp0
              ltac:(rewrite Hc0; apply repeat_length)) as [Hp1 [Hc1 _]].
  assert (H1 : costs_agree f (initial_phase f tv hq sched p st0)).
  { unfold costs_agree. rewrite Hp1, Hc1. apply Forall2_map_self. }
  pose proof (generation_loop_preserves (costs_agree f) f tv hc hq fuel sched p
                (trial_phase_agree f tv hc hq sched p) (max_generations p) 0 _ g1 []
                [cost (initial_phase f tv hq sched p st0)] H1) as H.
  assert (HNP : NP p <> 0).
  { intros E. clear -Hv E. unfold validate_differential_evolution_parameters in Hv. rewrite E in Hv.
    destruct (validate_bounds _ _); discriminate. }
  assert (HL : forall st', costs_agree f st' -> length (population st') = NP p ->
                 length (cost st') = NP p).
  { intros st' Ha Hl. rewrite <- (Forall2_length Ha). exact Hl. }
  assert (Hlen' : forall n generation st g th ch, length (population st) = NP p ->
     length (population (snd (fst (fst (generation_loop f tv hc hq fuel sched p n generation st g th ch))))) = NP p).
  { intros. apply (generation_loop_preserves (fun st => length (population st) = NP p)); [|assumption].
    intros generation' trials st' Hs. unfold trial_phase.
    apply (phase_preserves _ (fun st => length (population st) = NP p)); [|intros; assumption|exact Hs].
    intros i st'' Hs'. destruct (trial_iteration_shape f tv hc hq trials i st'') as [[E|E] _];
      rewrite E; rewrite ?length_replace_nth; exact Hs'. }
  specialize (Hlen' (max_generations p) 0 (initial_phase f tv hq sched p st0) g1 []
                [cost (initial_phase f tv hq sched p st0)] ltac:(rewrite Hp1; exact Hp0)).
  destruct (generation_loop _ _ _ _ _ _ _ _ _ _ _ _ _) as [[[d st] th] ch]. simpl in *.
  split; [exact H|]. intros x Hx. destruct d; [discriminate|]. injection Hx as <-.
  pose proof (HL st H Hlen') as Hc.
  assert (Hk : min_element (cost st) < NP p).
  { rewrite <- Hc. apply min_element_lt. intros E. rewrite E in Hc. simpl in Hc. lia. }
  exists (min_element (cost st)). split; [reflexivity|]. split; [exact Hk|].
  assert (Hp : nth_error (population st) (min_element (cost st)) =
               Some (nth (min_element (cost st)) (population st) [])).
  { apply nth_error_nth'. lia. }
  split; [exact Hp|].
  destruct (Forall2_nth_error_l _ _ _ _ _ _ _ H Hp) as [c [Hc' Hcx]]. rewrite Hc'. f_equal. exact Hcx.
Qed.

(** X5: when the initial population has [NP] candidates, every final cost is
    the objective of the candidate in the same slot, and a returned candidate
    sits at the position [min_element] picks in the final cost vector, with
    its objective as its cost. *)
Theorem costs_match_population :
  forall init f tv hc hq fuel sched p g,
  length (fst (init (lower_bounds p) (upper_bounds p) (NP p) g)) = NP p ->
  let r := differential_evolution init f tv hc hq fuel sched p g in
  Forall2 (fun x c => c = f x) (population (final_state r)) (cost (final_state r)) /\
  (forall x, outcome r = Returned x ->
   exists k, k = min_element (cost (final_state r)) /\ k < NP p /\
             nth_error (population (final_state r)) k = Some x /\
             nth_error (cost (final_state r)) k = Some (f x)).
Proof. exact run_costs_agree. Qed.

(** X5 witness: the race setting, worker 0 first. *)
Lemma costs_match_population_witness :
  length (fst (random_initial_population (lower_bounds (params_1d 1 None)) (upper_bounds (params_1d 1 None)) (NP (params_1d 1 None)) (replay race_stream))) = NP (params_1d 1 None) /\
  Forall2 (fun x c => c = square x) (population (final_state (differential_evolution random_initial_population square (Fin (1 # 2)) false false 10 worker0_first (params_1d 1 None) (replay race_stream)))) (cost (final_state (differential_evolution random_initial_population square (Fin (1 # 2)) false false 10 worker0_first (params_1d 1 None) (replay race_stream)))) /\
  (forall x, outcome (differential_evolution random_initial_population square (Fin (1 # 2)) false false 10 worker0_first (params_1d 1 None) (replay race_stream)) = Returned x ->
   exists k, k = min_element (cost (final_state (differential_evolution random_initial_population square (Fin (1 # 2)) false false 10 worker0_first (params_1d 1 None) (replay race_stream)))) /\ k < NP (params_1d 1 None) /\
             nth_error (population (final_state (differential_evolution random_initial_population square (Fin (1 # 2)) false false 10 worker0_first (params_1d 1 None) (replay race_stream)))) k = Some x /\
             nth_error (cost (final_state (differential_evolution random_initial_population square (Fin (1 # 2)) false false 10 worker0_first (params_1d 1 None) (replay race_stream)))) k = Some (square x)).
Proof.
  assert (H : length (fst (random_initial_population (lower_bounds (params_1d 1 None)) (upper_bounds (params_1d 1 None)) (NP (params_1d 1 None)) (replay race_stream))) = NP (params_1d 1 None)) by (vm_compute; reflexivity).
  split; [exact H|].
  exact (costs_match_population random_initial_population square (Fin (1 # 2)) false false 10
           worker0_first (params_1d 1 None) (replay race_stream) H).
Defined.

(** ** The query log *)


Lemma push_query_sound : forall f hq x st,
  Forall (fun q => snd q = f (fst q)) (queries st) -> length (queries st) < calls st ->
  hq = true -> log_sound f hq (push_query x (f x) st).
Proof.
  intros f hq x st H1 H3 Hq. unfold log_sound. simpl.
  rewrite length_app. simpl. split; [apply Forall_app; split; [exact H1 | constructor; [reflexivity | constructor]]|].
  split; [intros E; congruence | lia].
Qed.

Lemma count_call_sound : forall f hq st, log_sound f hq st -> log_sound f hq (count_call st).
Proof. intros f hq st [H1 [H2 H3]]. unfold log_sound. simpl. auto. Qed.

Lemma log_sound_cost : forall f hq st i c,
  log_sound f hq st -> log_sound f hq (set_cost i c st).
Proof. intros f hq st i c H. exact H. Qed.

Lemma log_sound_candidate : forall f hq st i x,
  log_sound f hq st -> log_sound f hq (set_candidate i x st).
Proof. intros f hq st i x H. exact H. Qed.

Lemma log_sound_target : forall f hq st,
  log_sound f hq st -> log_sound f hq (set_target_attained st).
Proof. intros f hq st H. exact H. Qed.

Lemma log_sound_cancel : forall f hq st,
  log_sound f hq st -> log_sound f hq (set_cancelled st).
Proof. intros f hq st H. exact H. Qed.

Lemma initial_iteration_sound : forall f tv hq i st,
  log_sound f hq st -> log_sound f hq (result_state (initial_iteration f tv hq i st)).
Proof.
  intros f tv hq i st H. unfold initial_iteration. cbn [result_state].
  assert (H' : log_sound f hq (if hq then push_query (nth i (population st) []) (f (nth i (population st) []))
                                           (set_cost i (f (nth i (population st) [])) (count_call st))
                               else set_cost i (f (nth i (population st) [])) (count_call st))).
  { destruct H as [H1 [H2 H3]]. destruct hq eqn:Hq.
    - apply push_query_sound; [exact H1 | simpl; lia | reflexivity].
    - apply log_sound_cost, count_call_sound. split; [exact H1 | split; [exact H2 | exact H3]]. }
  destruct (_ && _); [apply log_sound_target|]; exact H'.
Qed.

Lemma trial_iteration_sound : forall f tv hc hq trials i st,
  log_sound f hq st -> log_sound f hq (result_state (trial_iteration f tv hc hq trials i st)).
Proof.
  intros f tv hc hq trials i st H. unfold trial_iteration.
  destruct (target_attained st); [exact H|]. destruct (hc && cancelled st); [exact H|].
  destruct (isnan (f (nth i trials []))); [apply count_call_sound, H|].
  assert (H' : log_sound f hq (if hq then push_query (nth i trials []) (f (nth i trials []))
                                           (count_call st) else count_call st)).
  { destruct H as [H1 [H2 H3]]. destruct hq eqn:Hq.
    - apply push_query_sound; [exact H1 | simpl; lia | reflexivity].
    - apply count_call_sound. split; [exact H1 | split; [exact H2 | exact H3]]. }
  revert H'. generalize (if hq then push_query (nth i trials []) (f (nth i trials []))
                                   (count_call st) else count_call st).
  intros st' H'. destruct (_ || _); [|exact H'].
  destruct (_ && _); cbn [result_state];
    apply log_sound_candidate; [apply log_sound_target|]; apply log_sound_cost, H'.
Qed.

(** X6: every entry of the query log is a pair [(x, cost_function(x))]; the
    log stays empty when no query log is passed; and it has at most one entry
    per objective call. *)
Theorem query_log_sound :
  forall init f tv hc hq fuel sched p g,
  let r := differential_evolution init f tv hc hq fuel sched p g in
  Forall (fun q => snd q = f (fst q)) (queries (final_state r)) /\
  (hq = false -> queries (final_state r) = []) /\
  length (queries (final_state r)) <= calls (final_state r).
Proof.
  intros init f tv hc hq fuel sched p g. cbv zeta. unfold differential_evolution.
  destruct (validate_differential_evolution_parameters p) eqn:Hv;
    [simpl; split; [constructor | split; [reflexivity | lia]]|].
  pose proof (initial_state_shape init p g) as [_ [_ [_ [_ [Hq0 Hc0]]]]].
  destruct (initial_state init p g) as [st0 g1]. simpl in Hq0, Hc0.
  assert (H0 : log_sound f hq st0)
    by (unfold log_sound; rewrite Hq0, Hc0; split; [constructor | split; [reflexivity | simpl; lia]]).
  assert (H1 : log_sound f hq (initial_phase f tv hq sched p st0)).
  { unfold initial_phase. apply (phase_preserves _ (log_sound f hq)); [|apply log_sound_cancel|exact H0].
    intros i st Hs. apply initial_iteration_sound. exact Hs. }
  pose proof (generation_loop_preserves (log_sound f hq) f tv hc hq fuel sched p) as HL.
  refine (_ (HL _ (max_generations p) 0 _ g1 [] [cost (initial_phase f tv hq sched p st0)] H1)).
  - destruct (generation_loop _ _ _ _ _ _ _ _ _ _ _ _ _) as [[[d st] th] ch]. simpl.
    intros H. exact H.
  - intros generation trials st Hs. unfold trial_phase.
    apply (phase_preserves _ (log_sound f hq)); [|apply log_sound_cancel|exact Hs].
    intros i st' Hs'. apply trial_iteration_sound. exact Hs'.
Qed.

(** ** Shape of the trial vectors *)

Lemma crossover_length : forall p pop i r1 r2 r3 js g v g',
  crossover p pop i r1 r2 r3 js g = Some (v, g') -> length v = length js.
Proof.
  intros p pop i r1 r2 r3 js. induction js as [|j js IH]; intros g v g' H; simpl in H.
  - injection H as <- _. reflexivity.
  - unfold bind, ret, gen_call, unif01 in H. simpl in H.
    destruct (crossover p pop i r1 r2 r3 js _) as [[rest g2]|] eqn:E; [|discriminate].
    injection H as <- _. simpl. f_equal. eapply IH. exact E.
Qed.

Lemma make_trials_shape : forall p pop fuel is g ts g',
  make_trials p pop fuel is g = Some (ts, g') ->
  length ts = length is /\ Forall (fun t => length t = length (lower_bounds p)) ts.
Proof.
  intros p pop fuel is. induction is as [|i is IH]; intros g ts g' H; simpl in H.
  - injection H as <- _. split; [reflexivity | constructor].
  - unfold bind, ret in H.
    destruct (make_trial p pop fuel i g) as [[t g1]|] eqn:E1; [|discriminate].
    destruct (make_trials p pop fuel is g1) as [[ts' g2]|] eqn:E2; [|discriminate].
    injection H as <- _. destruct (IH _ _ _ E2) as [Hl Hf].
    split; [simpl; f_equal; exact Hl|]. constructor; [|exact Hf].
    unfold make_trial, bind in E1.
    destruct (draw_mutation_indices p fuel i g) as [[[[r1 r2] r3] g3]|]; [|discriminate].
    apply crossover_length in E1. rewrite E1. apply length_seq.
Qed.

(** X7: every generation's trial vectors are [NP] candidates, each with the
    dimension of the bounds. *)
Theorem trial_vectors_shape :
  forall init f tv hc hq fuel sched p g,
  Forall (fun ts => length ts = NP p /\ Forall (fun t => length t = length (lower_bounds p)) ts)
         (trial_history (differential_evolution init f tv hc hq fuel sched p g)).
Proof.
  intros init f tv hc hq fuel sched p g. unfold differential_evolution.
  destruct (validate_differential_evolution_parameters p); [constructor|].
  destruct (initial_state init p g) as [st0 g1].
  assert (H : forall n generation st g th ch,
            Forall (fun ts => length ts = NP p /\ Forall (fun t => length t = length (lower_bounds p)) ts) th ->
            Forall (fun ts => length ts = NP p /\ Forall (fun t => length t = length (lower_bounds p)) ts)
                   (snd (fst (generation_loop f tv hc hq fuel sched p n generation st g th ch)))).
  { induction n as [|n IH]; intros generation st g' th ch Hth; simpl; [exact Hth|].
    destruct (hc && cancelled st); [exact Hth|]. destruct (target_attained st); [exact Hth|].
    destruct (trial_vectors p (population st) fuel g') as [[trials g'']|] eqn:E; [|exact Hth].
    apply IH. apply Forall_app. split; [exact Hth|]. constructor; [|constructor].
    unfold trial_vectors in E. apply make_trials_shape in E as [Hl Hf].
    rewrite length_seq in Hl. split; assumption. }
  specialize (H (max_generations p) 0 (initial_phase f tv hq sched p st0) g1 []
                [cost (initial_phase f tv hq sched p st0)] (Forall_nil _)).
  destruct (generation_loop _ _ _ _ _ _ _ _ _ _ _ _ _) as [[[d st] th] ch]. exact H.
Qed.

(** ** Crossover *)

Lemma crossover_coords : forall p pop i r1 r2 r3 js g v g',
  crossover p pop i r1 r2 r3 js g = Some (v, g') ->
  Forall2 (fun j x => x = coord pop i j \/
                      x = clamp (mutant p pop r1 r2 r3 j) (nth j (lower_bounds p) NaN)
                                (nth j (upper_bounds p) NaN)) js v.
Proof.
  intros p pop i r1 r2 r3 js. induction js as [|j js IH]; intros g v g' H; simpl in H.
  - injection H as <- _. constructor.
  - unfold bind, ret, gen_call, unif01 in H. simpl in H.
    destruct (crossover p pop i r1 r2 r3 js _) as [[rest g2]|] eqn:E; [|discriminate].
    injection H as <- _. constructor; [|eapply IH; exact E].
    destruct (_ || _); auto.
Qed.

Lemma unif01_below_one : forall d,
  (Qred (Qmake (Z.of_N (N.modulo d 4294967296)) 4294967296) < 1)%Q.
Proof.
  intros d. rewrite Qred_correct. unfold Qlt. simpl.
  pose proof (N.mod_lt d 4294967296 ltac:(discriminate)) as H. lia.
Qed.

Lemma unif01_lt_cr : forall d cr, flt_le (Fin 1) cr = true ->
  flt_lt (Fin (Qred (Qmake (Z.of_N (N.modulo d 4294967296)) 4294967296))) cr = true.
Proof.
  intros d cr Hcr. pose proof (unif01_below_one d) as Hu.
  destruct cr as [| | |q]; simpl in Hcr; try discriminate; [reflexivity|].
  apply negb_true_iff, Qltb_false in Hcr. cbn [flt_lt]. apply Qltb_true.
  apply Qlt_le_trans with 1%Q; assumption.
Qed.

Lemma crossover_all_mutant : forall p pop i r1 r2 r3 js g v g',
  flt_le (Fin 1) (crossover_probability p) = true ->
  crossover p pop i r1 r2 r3 js g = Some (v, g') ->
  v = map (fun j => clamp (mutant p pop r1 r2 r3 j) (nth j (lower_bounds p) NaN)
                          (nth j (upper_bounds p) NaN)) js.
Proof.
  intros p pop i r1 r2 r3 js. induction js as [|j js IH]; intros g v g' Hcr H; cbn [crossover] in H.
  - injection H as <- _. reflexivity.
  - cbv beta iota zeta delta [bind ret gen_call unif01] in H. cbn [stream pos] in H.
    rewrite unif01_lt_cr in H by exact Hcr. cbn [orb] in H.
    destruct (crossover p pop i r1 r2 r3 js _) as [[rest g2]|] eqn:E; [|discriminate].
    injection H as <- _. rewrite (IH _ _ _ Hcr E). reflexivity.
Qed.

(** X8: a trial vector produced for candidate [i] is built from three drawn
    mutation indices; it has the dimension of the bounds, each coordinate is
    the parent's or the clamped mutant's, and with a crossover probability of
    at least 1 every coordinate is the clamped mutant's. *)
Theorem trial_coordinates_from_parent_or_mutant :
  forall p pop fuel i g t g',
  make_trial p pop fuel i g = Some (t, g') ->
  exists r1 r2 r3 g1,
    draw_mutation_indices p fuel i g = Some ((r1, r2, r3), g1) /\
    length t = length (lower_bounds p) /\
    (forall j, j < length (lower_bounds p) ->
       nth j t NaN = coord pop i j \/
       nth j t NaN = clamp (mutant p pop r1 r2 r3 j) (nth j (lower_bounds p) NaN)
                           (nth j (upper_bounds p) NaN)) /\
    (flt_le (Fin 1) (crossover_probability p) = true ->
     t = map (fun j => clamp (mutant p pop r1 r2 r3 j) (nth j (lower_bounds p) NaN)
                             (nth j (upper_bounds p) NaN)) (seq 0 (length (lower_bounds p)))).
Proof.
  intros p pop fuel i g t g' H. unfold make_trial, bind in H.
  destruct (draw_mutation_indices p fuel i g) as [[[[r1 r2] r3] g1]|] eqn:E; [|discriminate].
  exists r1, r2, r3, g1. split; [reflexivity|].
  pose proof (crossover_length _ _ _ _ _ _ _ _ _ _ H) as Hl. rewrite length_seq in Hl.
  split; [exact Hl|]. split.
  - intros j Hj. pose proof (crossover_coords _ _ _ _ _ _ _ _ _ _ H) as HF. unfold dimension in HF.
    assert (Hn := Forall2_nth_lt _ _ _ _ _ j 0 NaN HF ltac:(rewrite length_seq; exact Hj)).
    cbv beta in Hn. rewrite seq_nth in Hn by exact Hj. exact Hn.
  - intros Hcr. eapply crossover_all_mutant; eassumption.
Qed.

(** X8 witness: candidate 0 of the race population, crossover probability 1. *)
Lemma trial_coordinates_from_parent_or_mutant_witness :
  make_trial (set_crossover_probability (params_1d 1 None) (Fin 1)) [[Fin 2]; [Fin (5 # 2)]; [Fin (-3)]; [Fin 1]] 10 0 (replay race_stream) = Some ([Fin (1 # 2)], (mk_urbg (stream (replay race_stream)) 9)) /\
  exists r1 r2 r3 g1,
    draw_mutation_indices (set_crossover_probability (params_1d 1 None) (Fin 1)) 10 0 (replay race_stream) = Some ((r1, r2, r3), g1) /\
    length [Fin (1 # 2)] = length (lower_bounds (set_crossover_probability (params_1d 1 None) (Fin 1))) /\
    (forall j, j < length (lower_bounds (set_crossover_probability (params_1d 1 None) (Fin 1))) ->
       nth j [Fin (1 # 2)] NaN = coord [[Fin 2]; [Fin (5 # 2)]; [Fin (-3)]; [Fin 1]] 0 j \/
       nth j [Fin (1 # 2)] NaN = clamp (mutant (set_crossover_probability (params_1d 1 None) (Fin 1)) [[Fin 2]; [Fin (5 # 2)]; [Fin (-3)]; [Fin 1]] r1 r2 r3 j)
                                       (nth j (lower_bounds (set_crossover_probability (params_1d 1 None) (Fin 1))) NaN)
                                       (nth j (upper_bounds (set_crossover_probability (params_1d 1 None) (Fin 1))) NaN)) /\
    (flt_le (Fin 1) (crossover_probability (set_crossover_probability (params_1d 1 None) (Fin 1))) = true ->
     [Fin (1 # 2)] = map (fun j => clamp (mutant (set_crossover_probability (params_1d 1 None) (Fin 1)) [[Fin 2]; [Fin (5 # 2)]; [Fin (-3)]; [Fin 1]] r1 r2 r3 j)
                                         (nth j (lower_bounds (set_crossover_probability (params_1d 1 None) (Fin 1))) NaN)
                                         (nth j (upper_bounds (set_crossover_probability (params_1d 1 None) (Fin 1))) NaN))
                         (seq 0 (length (lower_bounds (set_crossover_probability (params_1d 1 None) (Fin 1)))))).
Proof.
  assert (H : make_trial (set_crossover_probability (params_1d 1 None) (Fin 1)) [[Fin 2]; [Fin (5 # 2)]; [Fin (-3)]; [Fin 1]] 10 0 (replay race_stream) = Some ([Fin (1 # 2)], (mk_urbg (stream (replay race_stream)) 9)))
    by (vm_compute; reflexivity).
  split; [exact H|].
  exact (trial_coordinates_from_parent_or_mutant (set_crossover_probability (params_1d 1 None) (Fin 1)) [[Fin 2]; [Fin (5 # 2)]; [Fin (-3)]; [Fin 1]] 10 0 (replay race_stream) [Fin (1 # 2)] (mk_urbg (stream (replay race_stream)) 9) H).
Defined.

(** ** Stopping after the initial scoring *)

Section PhaseCancel.

Variable body : nat -> de_state -> step_result.
Hypothesis body_keeps : forall i st, cancelled st = true -> cancelled (result_state (body i st)) = true.

Lemma phase_cancel : forall rems evs st, In Cancel evs -> cancelled (phase body rems evs st) = true.
Proof.
  intros rems evs st Hin.
  assert (H : cancelled (snd (run_events body evs rems st)) = true).
  { revert rems st. induction evs as [|[j|] evs IH]; intros rems st; simpl in Hin;
      [contradiction| |].
    - destruct Hin as [E|Hin]; [discriminate|]. simpl.
      destruct (nth j rems []) as [|i rem']; simpl; [apply IH; exact Hin|].
      destruct (body i st); apply IH; exact Hin.
    - exact (run_events_preserves body (fun st => cancelled st = true) body_keeps
               (fun _ _ => eq_refl) evs rems (set_cancelled st) eq_refl). }
  unfold phase. destruct (run_events body evs rems st) as [rems' st']. simpl in H.
  unfold join. revert st' H. induction rems' as [|rem rems' IH]; intros st' H; simpl; [exact H|].
  apply IH. apply (run_worker_preserves body (fun st => cancelled st = true));
    [exact body_keeps | exact H].
Qed.

End PhaseCancel.

Lemma initial_iteration_cancelled : forall f tv hq i st,
  cancelled (result_state (initial_iteration f tv hq i st)) = cancelled st.
Proof.
  intros. unfold initial_iteration. destruct hq; destruct (_ && _); reflexivity.
Qed.

Lemma generation_loop_stops :
  forall f tv hc hq fuel sched p n generation st g th ch,
  hc && cancelled st = true \/ target_attained st = true ->
  generation_loop f tv hc hq fuel sched p n generation st g th ch = (false, st, th, ch).
Proof.
  intros f tv hc hq fuel sched p n generation st g th ch H.
  destruct n; simpl; [reflexivity|].
  destruct H as [H|H]; rewrite H; [reflexivity|]. destruct (hc && cancelled st); reflexivity.
Qed.

Lemma run_after_initial_stop : forall init f tv hc hq fuel sched p g,
  validate_differential_evolution_parameters p = None ->
  let st1 := initial_phase f tv hq sched p (fst (initial_state init p g)) in
  hc && cancelled st1 = true \/ target_attained st1 = true ->
  let r := differential_evolution init f tv hc hq fuel sched p g in
  final_state r = st1 /\
  outcome r = Returned (nth (min_element (cost st1)) (population st1) []) /\
  trial_history r = [] /\ cost_history r = [cost st1] /\ calls st1 = NP p.
Proof.
  intros init f tv hc hq fuel sched p g Hv. cbv zeta. intros H.
  pose proof (valid_threads p Hv) as Ht.
  pose proof (initial_state_shape init p g) as [_ [_ [_ [_ [_ Hc0]]]]].
  unfold differential_evolution. rewrite Hv.
  destruct (initial_state init p g) as [st0 g1]. simpl in *.
  rewrite generation_loop_stops by exact H. simpl.
  rewrite initial_phase_calls by exact Ht. rewrite Hc0. auto.
Qed.

(** X9: with valid parameters and a cancellation flag, when the caller cancels
    during the initial scoring, no generation runs: the run returns the best
    initial candidate after exactly [NP] objective calls. *)
Theorem cancel_during_initial_scoring : forall init f tv hq fuel sched p g,
  validate_differential_evolution_parameters p = None -> In Cancel (sched 0) ->
  let r := differential_evolution init f tv true hq fuel sched p g in
  cancelled (final_state r) = true /\
  outcome r = Returned (nth (min_element (cost (final_state r))) (population (final_state r)) []) /\
  trial_history r = [] /\ cost_history r = [cost (final_state r)] /\
  calls (final_state r) = NP p.
Proof.
  intros init f tv hq fuel sched p g Hv Hc. cbv zeta.
  assert (H : cancelled (initial_phase f tv hq sched p (fst (initial_state init p g))) = true).
  { unfold initial_phase. apply phase_cancel; [|exact Hc].
    intros i st Hs. rewrite initial_iteration_cancelled. exact Hs. }
  destruct (run_after_initial_stop init f tv true hq fuel sched p g Hv
              ltac:(left; exact H)) as [Hf [Ho [Hth [Hch Hn]]]].
  rewrite Hf, Ho, Hth, Hch. auto.
Qed.

(** X9 witness: the race setting, cancelled at once. *)
Lemma cancel_during_initial_scoring_witness :
  validate_differential_evolution_parameters (params_1d 1 None) = None /\
  In Cancel ((fun k => if Nat.eqb k 0 then [Cancel] else []) 0) /\
  cancelled (final_state (differential_evolution random_initial_population square (Fin (1 # 2)) true false 10 (fun k => if Nat.eqb k 0 then [Cancel] else []) (params_1d 1 None) (replay race_stream))) = true /\
  outcome (differential_evolution random_initial_population square (Fin (1 # 2)) true false 10 (fun k => if Nat.eqb k 0 then [Cancel] else []) (params_1d 1 None) (replay race_stream)) = Returned (nth (min_element (cost (final_state (differential_evolution random_initial_population square (Fin (1 # 2)) true false 10 (fun k => if Nat.eqb k 0 then [Cancel] else []) (params_1d 1 None) (replay race_stream))))) (population (final_state (differential_evolution random_initial_population square (Fin (1 # 2)) true false 10 (fun k => if Nat.eqb k 0 then [Cancel] else []) (params_1d 1 None) (replay race_stream)))) []) /\
  trial_history (differential_evolution random_initial_population square (Fin (1 # 2)) true false 10 (fun k => if Nat.eqb k 0 then [Cancel] else []) (params_1d 1 None) (replay race_stream)) = [] /\ cost_history (differential_evolution random_initial_population square (Fin (1 # 2)) true false 10 (fun k => if Nat.eqb k 0 then [Cancel] else []) (params_1d 1 None) (replay race_stream)) = [cost (final_state (differential_evolution random_initial_population square (Fin (1 # 2)) true false 10 (fun k => if Nat.eqb k 0 then [Cancel] else []) (params_1d 1 None) (replay race_stream)))] /\
  calls (final_state (differential_evolution random_initial_population square (Fin (1 # 2)) true false 10 (fun k => if Nat.eqb k 0 then [Cancel] else []) (params_1d 1 None) (replay race_stream))) = NP (params_1d 1 None).
Proof.
  assert (Hv : validate_differential_evolution_parameters (params_1d 1 None) = None) by (vm_compute; reflexivity).
  assert (Hc : In Cancel ((fun k => if Nat.eqb k 0 then [Cancel] else []) 0)) by (simpl; left; reflexivity).
  split; [exact Hv|]. split; [exact Hc|].
  exact (cancel_during_initial_scoring random_initial_population square (Fin (1 # 2)) false 10
           (fun k => if Nat.eqb k 0 then [Cancel] else []) (params_1d 1 None) (replay race_stream) Hv Hc).
Defined.

(** X10: with valid parameters and a target value that is not NaN, when some
    initial candidate has a cost at or below the target, no generation runs:
    the run returns the best initial candidate after exactly [NP] objective
    calls, with the target flag set. *)
Theorem target_reached_in_initial_scoring : forall init f tv hc hq fuel sched p g k,
  validate_differential_evolution_parameters p = None -> isnan tv = false -> k < NP p ->
  flt_le (f (nth k (population (fst (initial_state init p g))) [])) tv = true ->
  let r := differential_evolution init f tv hc hq fuel sched p g in
  target_attained (final_state r) = true /\
  outcome r = Returned (nth (min_element (cost (final_state r))) (population (final_state r)) []) /\
  trial_history r = [] /\ cost_history r = [cost (final_state r)] /\
  calls (final_state r) = NP p.
Proof.
  intros init f tv hc hq fuel sched p g k Hv Htv Hk Hle. cbv zeta.
  pose proof (valid_threads p Hv) as Ht.
  assert (H : target_attained (initial_phase f tv hq sched p (fst (initial_state init p g))) = true).
  { apply initial_phase_flag. right. exists k. split; [apply in_worker_lists; assumption|].
    unfold initial_slot_attains, slot. simpl. rewrite Htv. simpl.
    rewrite <- nth_as_error. exact Hle. }
  destruct (run_after_initial_stop init f tv hc hq fuel sched p g Hv
              ltac:(right; exact H)) as [Hf [Ho [Hth [Hch Hn]]]].
  rewrite Hf, Ho, Hth, Hch. auto.
Qed.

(** X10 witness: the race setting with target 1, reached by candidate 3. *)
Lemma target_reached_in_initial_scoring_witness :
  validate_differential_evolution_parameters (params_1d 1 None) = None /\ isnan (Fin 1) = false /\
  3 < NP (params_1d 1 None) /\
  flt_le (square (nth 3 (population (fst (initial_state random_initial_population (params_1d 1 None) (replay race_stream)))) [])) (Fin 1) = true /\
  target_attained (final_state (differential_evolution random_initial_population square (Fin 1) false false 10 worker0_first (params_1d 1 None) (replay race_stream))) = true /\
  outcome (differential_evolution random_initial_population square (Fin 1) false false 10 worker0_first (params_1d 1 None) (replay race_stream)) = Returned (nth (min_element (cost (final_state (differential_evolution random_initial_population square (Fin 1) false false 10 worker0_first (params_1d 1 None) (replay race_stream))))) (population (final_state (differential_evolution random_initial_population square (Fin 1) false false 10 worker0_first (params_1d 1 None) (replay race_stream)))) []) /\
  trial_history (differential_evolution random_initial_population square (Fin 1) false false 10 worker0_first (params_1d 1 None) (replay race_stream)) = [] /\ cost_history (differential_evolution random_initial_population square (Fin 1) false false 10 worker0_first (params_1d 1 None) (replay race_stream)) = [cost (final_state (differential_evolution random_initial_population square (Fin 1) false false 10 worker0_first (params_1d 1 None) (replay race_stream)))] /\
  calls (final_state (differential_evolution random_initial_population square (Fin 1) false false 10 worker0_first (params_1d 1 None) (replay race_stream))) = NP (params_1d 1 None).
Proof.
  assert (Hv : validate_differential_evolution_parameters (params_1d 1 None) = None) by (vm_compute; reflexivity).
  assert (Hk : 3 < NP (params_1d 1 None)) by (simpl; lia).
  assert (Hle : flt_le (square (nth 3 (population (fst (initial_state random_initial_population (params_1d 1 None) (replay race_stream)))) [])) (Fin 1) = true)
    by (vm_compute; reflexivity).
  split; [exact Hv|]. split; [reflexivity|]. split; [exact Hk|]. split; [exact Hle|].
  exact (target_reached_in_initial_scoring random_initial_population square (Fin 1) false false 10
           worker0_first (params_1d 1 None) (replay race_stream) 3 Hv eq_refl Hk Hle).
Defined.

Lemma flt_le_nan_r : forall c, flt_le c NaN = false.
Proof. intros []; reflexivity. Qed.

Lemma flt_le_nan_l : forall c, flt_le NaN c = false.
Proof. intros []; reflexivity. Qed.

Lemma target_test_false : forall c tv,
  negb (isnan tv) && flt_le c tv = false -> flt_le c tv = false.
Proof.
  intros c tv H. destruct tv; simpl in H; try exact H; apply flt_le_nan_r.
Qed.


Lemma initial_iteration_below : forall f tv hq i st,
  below_target tv st -> below_target tv (result_state (initial_iteration f tv hq i st)).
Proof.
  intros f tv hq i st H. unfold initial_iteration, below_target in *. simpl.
  destruct (negb (isnan tv) && flt_le (f (nth i (population st) [])) tv) eqn:E;
    destruct hq; simpl; try discriminate; intros Ht;
    apply Forall_replace_nth; auto; intros _; apply target_test_false; exact E.
Qed.

Lemma trial_iteration_below : forall f tv hc hq trials i st,
  below_target tv st -> below_target tv (result_state (trial_iteration f tv hc hq trials i st)).
Proof.
  intros f tv hc hq trials i st H. unfold trial_iteration.
  destruct (target_attained st) eqn:Ht0; [exact H|]. destruct (hc && cancelled st); [exact H|].
  destruct (isnan (f (nth i trials []))); [exact H|].
  unfold below_target in *.
  destruct hq; simpl; (destruct (_ || _); [|exact H]);
    (destruct (negb (isnan tv) && flt_le (f (nth i trials [])) tv) eqn:E; simpl;
     [discriminate|]); intros _; apply Forall_replace_nth; auto; intros _;
    apply target_test_false; exact E.
Qed.

Lemma generation_loop_below :
  forall f tv hc hq fuel sched p n generation st g th ch,
  below_target tv st -> length ch = S (length th) -> nth (length th) ch [] = cost st ->
  (forall i, i < length th -> Forall (fun c => flt_le c tv = false) (nth i ch [])) ->
  let r := generation_loop f tv hc hq fuel sched p n generation st g th ch in
  forall i, i < length (snd (fst r)) -> Forall (fun c => flt_le c tv = false) (nth i (snd r) []).
Proof.
  intros f tv hc hq fuel sched p n. induction n as [|n IH];
    intros generation st g th ch Hb Hl Hn Hall; simpl; [exact Hall|].
  destruct (hc && cancelled st); [exact Hall|].
  destruct (target_attained st) eqn:Ht; [exact Hall|].
  destruct (trial_vectors p (population st) fuel g) as [[trials g']|]; [|exact Hall].
  apply IH.
  - unfold trial_phase. apply (phase_preserves _ (below_target tv)); [| |exact Hb].
    + intros i st' Hs. apply trial_iteration_below. exact Hs.
    + intros st' Hs. exact Hs.
  - rewrite !length_app. simpl. lia.
  - rewrite length_app. simpl. rewrite app_nth2 by lia. rewrite Hl. replace (length th + 1 - S (length th)) with 0 by lia.
    reflexivity.
  - intros i Hi. rewrite length_app in Hi. simpl in Hi. rewrite app_nth1 by lia.
    destruct (Nat.eq_dec i (length th)) as [->|Hne]; [rewrite Hn; apply Hb; exact Ht|].
    apply Hall. lia.
Qed.

(** X11: each generation that runs starts from a cost vector in which no cost
    is at or below the target value. *)
Theorem generations_start_below_target : forall init f tv hc hq fuel sched p g i,
  let r := differential_evolution init f tv hc hq fuel sched p g in
  i < length (trial_history r) ->
  Forall (fun c => flt_le c tv = false) (nth i (cost_history r) []).
Proof.
  intros init f tv hc hq fuel sched p g. cbv zeta. unfold differential_evolution.
  destruct (validate_differential_evolution_parameters p); [simpl; intros; lia|].
  pose proof (initial_state_shape init p g) as [_ [Hc0 [Hf0 _]]].
  destruct (initial_state init p g) as [st0 g1]. simpl in Hc0, Hf0.
  assert (H1 : below_target tv (initial_phase f tv hq sched p st0)).
  { unfold initial_phase. apply (phase_preserves _ (below_target tv)); [| |].
    - intros i st' Hs. apply initial_iteration_below. exact Hs.
    - intros st' Hs. exact Hs.
    - intros _. rewrite Hc0. apply Forall_forall. intros c Hc.
      apply repeat_spec in Hc. subst c. apply flt_le_nan_l. }
  pose proof (generation_loop_below f tv hc hq fuel sched p (max_generations p) 0
                (initial_phase f tv hq sched p st0) g1 [] [cost (initial_phase f tv hq sched p st0)]
                H1 eq_refl eq_refl ltac:(simpl; intros; lia)) as H.
  cbv zeta in H.
  destruct (generation_loop _ _ _ _ _ _ _ _ _ _ _ _ _) as [[[d st] th] ch]. exact H.
Qed.

(** X11 witness: generation 0 of the race setting. *)
Lemma generations_start_below_target_witness :
  0 < length (trial_history (differential_evolution random_initial_population square (Fin (1 # 2)) false false 10 worker0_first (params_1d 1 None) (replay race_stream))) /\
  Forall (fun c => flt_le c (Fin (1 # 2)) = false) (nth 0 (cost_history (differential_evolution random_initial_population square (Fin (1 # 2)) false false 10 worker0_first (params_1d 1 None) (replay race_stream))) []).
Proof.
  assert (H : 0 < length (trial_history (differential_evolution random_initial_population square (Fin (1 # 2)) false false 10 worker0_first (params_1d 1 None) (replay race_stream)))) by (vm_compute; lia).
  split; [exact H|].
  exact (generations_start_below_target random_initial_population square (Fin (1 # 2)) false false
           10 worker0_first (params_1d 1 None) (replay race_stream) 0 H).
Defined.

(** ** A run that stops early *)

Section PhasePreservesIn.

Variable body : nat -> de_state -> step_result.
Variable Q : de_state -> Prop.
Variable rems0 : list (list nat).
Hypothesis body_Q : forall i st, In i (concat rems0) -> Q st -> Q (result_state (body i st)).
Hypothesis cancel_Q : forall st, Q st -> Q (set_cancelled st).

Lemma run_events_preserves_in : forall evs rems st,
  incl (concat rems) (concat rems0) -> Q st ->
  incl (concat (fst (run_events body evs rems st))) (concat rems0) /\
  Q (snd (run_events body evs rems st)).
Proof.
  induction evs as [|[j|] evs IH]; intros rems st Hi H; simpl; [auto | |].
  - destruct (nth j rems []) as [|i rem'] eqn:Ej; simpl.
    + apply IH; [|exact H]. intros k Hk.
      apply in_concat_replace_nth_inv in Hk as [Hk|Hk]; [apply Hi, Hk | contradiction].
    + assert (Hin : forall k, In k (i :: rem') -> In k (concat rems0)).
      { intros k Hk. apply Hi. apply (in_concat_nth _ rems j k). rewrite Ej. exact Hk. }
      pose proof (body_Q i st (Hin i (or_introl eq_refl)) H) as Hb.
      destruct (body i st) as [st'|st']; apply IH; try exact Hb; intros k Hk;
        apply in_concat_replace_nth_inv in Hk as [Hk|Hk]; auto.
      * apply Hin. right. exact Hk.
      * contradiction.
  - apply IH, cancel_Q; assumption.
Qed.

Lemma run_worker_preserves_in : forall rem st,
  incl rem (concat rems0) -> Q st -> Q (run_worker body rem st).
Proof.
  induction rem as [|i rem IH]; intros st Hi H; simpl; [exact H|].
  pose proof (body_Q i st (Hi i (or_introl eq_refl)) H) as Hb.
  destruct (body i st); [apply IH; [intros k Hk; apply Hi; right; exact Hk|]|]; exact Hb.
Qed.

Lemma phase_preserves_in : forall evs st, Q st -> Q (phase body rems0 evs st).
Proof.
  intros evs st H. unfold phase.
  destruct (run_events_preserves_in evs rems0 st (incl_refl _) H) as [Hi H1].
  destruct (run_events body evs rems0 st) as [rems' st']. simpl in Hi, H1.
  unfold join. revert st' Hi H1. induction rems' as [|rem rems' IH]; intros st' Hi H1; simpl;
    [exact H1|].
  apply IH; [intros k Hk; apply Hi; simpl; apply in_or_app; right; exact Hk|].
  apply run_worker_preserves_in; [|exact H1].
  intros k Hk. apply Hi. simpl. apply in_or_app. left. exact Hk.
Qed.

End PhasePreservesIn.

Lemma in_worker_lists_lt : forall n t x, In x (concat (worker_lists n t)) -> x < n.
Proof.
  intros n t x H. unfold worker_lists in H. apply in_concat in H as [l [Hl Hx]].
  apply in_map_iff in Hl as [j [<- _]]. unfold worker_indices in Hx.
  apply in_stride_from in Hx as [k [_ [_ Hx]]]. exact Hx.
Qed.


Lemma Exists_replace_nth_at : forall (P : flt -> Prop) l i x,
  i < length l -> P x -> Exists P (replace_nth i x l).
Proof.
  intros P l. induction l as [|y l IH]; intros i x Hi Hx; [simpl in Hi; lia|].
  destruct i; simpl; [constructor; exact Hx|]. apply Exists_cons_tl. apply IH; [simpl in Hi; lia|exact Hx].
Qed.

Lemma trial_iteration_witnessed : forall f tv hc hq trials n i st,
  i < n -> flag_witnessed n tv st ->
  flag_witnessed n tv (result_state (trial_iteration f tv hc hq trials i st)).
Proof.
  intros f tv hc hq trials n i st Hi HW. unfold trial_iteration.
  destruct (target_attained st) eqn:Ht0; [exact HW|].
  destruct (hc && cancelled st); [exact HW|].
  destruct (isnan (f (nth i trials []))); [exact HW|].
  destruct HW as [Hl _].
  destruct hq; (destruct (_ || _));
    [| unfold flag_witnessed; simpl; split; [exact Hl|rewrite Ht0; discriminate]
     | | unfold flag_witnessed; simpl; split; [exact Hl|rewrite Ht0; discriminate]];
    (destruct (negb (isnan tv) && flt_le (f (nth i trials [])) tv) eqn:E;
     unfold flag_witnessed; simpl; (split; [rewrite length_replace_nth; exact Hl|]);
     [|rewrite Ht0; discriminate]);
    intros _; (apply Exists_replace_nth_at; [lia|]);
    apply andb_true_iff in E as [_ E]; exact E.
Qed.

Lemma initial_phase_witnessed : forall f tv hq sched p st,
  target_attained st = false -> length (cost st) = NP p ->
  flag_witnessed (NP p) tv (initial_phase f tv hq sched p st).
Proof.
  intros f tv hq sched p st Ht0 Hl.
  assert (Hs := initial_phase_slots f tv hq sched p st).
  split.
  - unfold initial_phase. apply (phase_preserves _ (fun st => length (cost st) = NP p));
      [| intros st' H; exact H | exact Hl].
    intros i st' H. destruct (initial_iteration_shape f tv hq i st') as [_ [c E]].
    rewrite E, length_replace_nth. exact H.
  - intros H. apply initial_phase_flag in H as [H|[k [Hk Ha]]]; [congruence|].
    specialize (Hs k).
    destruct (in_dec Nat.eq_dec k (concat (worker_lists (NP p) (threads p)))) as [_|Hn];
      [|contradiction].
    apply in_worker_lists_lt in Hk.
    unfold slot, initial_slot_update in Hs. injection Hs as Hc _.
    destruct (nth_error (cost st) k) eqn:E; [|apply nth_error_None in E; lia].
    simpl in Hc. apply Exists_exists. eexists. split; [eapply nth_error_In; exact Hc|].
    unfold initial_slot_attains, slot in Ha. apply andb_true_iff in Ha as [_ Ha]. exact Ha.
Qed.

Lemma trial_phase_witnessed : forall f tv hc hq sched p generation trials st,
  flag_witnessed (NP p) tv st ->
  flag_witnessed (NP p) tv (trial_phase f tv hc hq sched p generation trials st).
Proof.
  intros f tv hc hq sched p generation trials st H. unfold trial_phase.
  apply (phase_preserves_in _ (flag_witnessed (NP p) tv)); [| |exact H].
  - intros i st' Hi Hs. apply trial_iteration_witnessed; [|exact Hs].
    apply in_worker_lists_lt in Hi. exact Hi.
  - intros st' Hs. exact Hs.
Qed.

Lemma generation_loop_early :
  forall f tv hc hq fuel sched p n generation st g th ch,
  flag_witnessed (NP p) tv st ->
  let r := generation_loop f tv hc hq fuel sched p n generation st g th ch in
  flag_witnessed (NP p) tv (snd (fst (fst r))) /\
  (fst (fst (fst r)) = false -> length (snd (fst r)) < length th + n ->
   hc && cancelled (snd (fst (fst r))) = true \/ target_attained (snd (fst (fst r))) = true).
Proof.
  intros f tv hc hq fuel sched p n. induction n as [|n IH];
    intros generation st g th ch H; simpl; [split; [exact H | intros; lia]|].
  destruct (hc && cancelled st) eqn:Hc; [simpl; auto|].
  destruct (target_attained st) eqn:Ht; [simpl; auto|].
  destruct (trial_vectors p (population st) fuel g) as [[trials g']|];
    [|simpl; split; [exact H | discriminate]].
  destruct (IH (S generation) (trial_phase f tv hc hq sched p generation trials st) g'
               (th ++ [trials]) (ch ++ [cost (trial_phase f tv hc hq sched p generation trials st)])
               (trial_phase_witnessed f tv hc hq sched p generation trials st H)) as [H1 H2].
  split; [exact H1|]. intros Hd Hl. apply H2; [exact Hd|]. rewrite length_app. simpl. lia.
Qed.

(** X12: when a run returns a candidate before [max_generations] generations,
    either the caller cancelled (with a cancellation flag) or the target flag
    is set and some final cost is at or below the target. *)
Theorem early_stop_explained : forall init f tv hc hq fuel sched p g x,
  let r := differential_evolution init f tv hc hq fuel sched p g in
  outcome r = Returned x -> length (trial_history r) < max_generations p ->
  (hc = true /\ cancelled (final_state r) = true) \/
  (target_attained (final_state r) = true /\
   Exists (fun c => flt_le c tv = true) (cost (final_state r))).
Proof.
  intros init f tv hc hq fuel sched p g x. cbv zeta. unfold differential_evolution.
  destruct (validate_differential_evolution_parameters p); [discriminate|].
  pose proof (initial_state_shape init p g) as [_ [Hc0 [Hf0 _]]].
  destruct (initial_state init p g) as [st0 g1]. simpl in Hc0, Hf0.
  pose proof (initial_phase_witnessed f tv hq sched p st0 Hf0
                ltac:(rewrite Hc0; apply repeat_length)) as H1.
  destruct (generation_loop_early f tv hc hq fuel sched p (max_generations p) 0
              (initial_phase f tv hq sched p st0) g1 [] [cost (initial_phase f tv hq sched p st0)] H1)
    as [HW H].
  destruct (generation_loop _ _ _ _ _ _ _ _ _ _ _ _ _) as [[[d st] th] ch]. simpl in *.
  intros Ho Hl. destruct d; [discriminate|].
  destruct (H eq_refl Hl) as [Hc|Ht].
  - left. apply andb_true_iff in Hc. exact Hc.
  - right. split; [exact Ht|]. apply (proj2 HW), Ht.
Qed.

(** X12 witness: the race setting with two generations allowed stops after
    one, on the target. *)
Lemma early_stop_explained_witness :
  outcome (differential_evolution random_initial_population square (Fin (1 # 2)) false false 10 worker0_first (params_1d 2 None) (replay race_stream)) = Returned [Fin (1 # 2)] /\
  length (trial_history (differential_evolution random_initial_population square (Fin (1 # 2)) false false 10 worker0_first (params_1d 2 None) (replay race_stream))) < max_generations (params_1d 2 None) /\
  ((false = true /\ cancelled (final_state (differential_evolution random_initial_population square (Fin (1 # 2)) false false 10 worker0_first (params_1d 2 None) (replay race_stream))) = true) \/
   (target_attained (final_state (differential_evolution random_initial_population square (Fin (1 # 2)) false false 10 worker0_first (params_1d 2 None) (replay race_stream))) = true /\
    Exists (fun c => flt_le c (Fin (1 # 2)) = true) (cost (final_state (differential_evolution random_initial_population square (Fin (1 # 2)) false false 10 worker0_first (params_1d 2 None) (replay race_stream)))))).
Proof.
  assert (Ho : outcome (differential_evolution random_initial_population square (Fin (1 # 2)) false false 10 worker0_first (params_1d 2 None) (replay race_stream)) = Returned [Fin (1 # 2)]) by (vm_compute; reflexivity).
  assert (Hl : length (trial_history (differential_evolution random_initial_population square (Fin (1 # 2)) false false 10 worker0_first (params_1d 2 None) (replay race_stream))) < max_generations (params_1d 2 None)) by (vm_compute; lia).
  split; [exact Ho|]. split; [exact Hl|].
  exact (early_stop_explained random_initial_population square (Fin (1 # 2)) false false 10
           worker0_first (params_1d 2 None) (replay race_stream) [Fin (1 # 2)] Ho Hl).
Defined.

Lemma flt_lt_le_trans : forall a b c, flt_lt a b = true -> flt_le b c = true -> flt_lt a c = true.
Proof.
  intros [| | |x] [| | |y] [| | |z]; simpl; auto; try discriminate.
  rewrite negb_true_iff, Qltb_false, !Qltb_true. intros H1 H2. eapply Qlt_le_trans; eassumption.
Qed.

Lemma min_element_from_spec : forall l P best bv,
  best < length P -> nth best P NaN = bv ->
  Forall (fun c => isnan c = false) (P ++ l) ->
  (forall y, In y P -> flt_le bv y = true) ->
  (forall j, j < best -> flt_lt bv (nth j P NaN) = true) ->
  let m := min_element_from l (length P) best bv in
  m < length P + length l /\
  (forall y, In y (P ++ l) -> flt_le (nth m (P ++ l) NaN) y = true) /\
  (forall j, j < m -> flt_lt (nth m (P ++ l) NaN) (nth j (P ++ l) NaN) = true).
Proof.
  induction l as [|x l IH]; intros P best bv Hb Hn Hnan Hle Hlt; cbv zeta; simpl.
  - rewrite app_nil_r. rewrite Hn. split; [lia|]. split; [exact Hle | exact Hlt].
  - assert (HP : P ++ x :: l = (P ++ [x]) ++ l) by (rewrite <- app_assoc; reflexivity).
    assert (HL : S (length P) = length (P ++ [x])) by (rewrite length_app; simpl; lia).
    assert (Hx : isnan x = false).
    { rewrite Forall_forall in Hnan. apply Hnan. apply in_or_app. right. left. reflexivity. }
    assert (Hbv : isnan bv = false).
    { rewrite Forall_forall in Hnan. apply Hnan. apply in_or_app. left. rewrite <- Hn.
      apply nth_In. exact Hb. }
    rewrite HP, HL. rewrite HP in Hnan.
    destruct (flt_lt x bv) eqn:E.
    + destruct (IH (P ++ [x]) (length P) x) as [H1 [H2 H3]].
      * rewrite length_app. simpl. lia.
      * rewrite app_nth2 by lia. rewrite Nat.sub_diag. reflexivity.
      * exact Hnan.
      * intros y Hy. apply in_app_or in Hy as [Hy|[<-|[]]]; [|apply flt_le_refl; exact Hx].
        apply flt_lt_le. apply (flt_lt_le_trans _ bv); [exact E | apply Hle, Hy].
      * intros j Hj. rewrite app_nth1 by exact Hj. apply (flt_lt_le_trans _ bv); [exact E|].
        apply Hle, nth_In. exact Hj.
      * split; [lia|]. split; assumption.
    + destruct (IH (P ++ [x]) best bv) as [H1 [H2 H3]].
      * rewrite length_app. simpl. lia.
      * rewrite app_nth1 by exact Hb. exact Hn.
      * exact Hnan.
      * intros y Hy. apply in_app_or in Hy as [Hy|[<-|[]]]; [apply Hle, Hy|].
        rewrite flt_le_lt by assumption. rewrite E. reflexivity.
      * intros j Hj. rewrite app_nth1 by lia. apply Hlt, Hj.
      * split; [lia|]. split; assumption.
Qed.

Lemma min_element_spec : forall l, l <> [] -> Forall (fun c => isnan c = false) l ->
  min_element l < length l /\
  (forall y, In y l -> flt_le (nth (min_element l) l NaN) y = true) /\
  (forall j, j < min_element l -> flt_lt (nth (min_element l) l NaN) (nth j l NaN) = true).
Proof.
  intros [|x l] Hne Hnan; [congruence|]. unfold min_element.
  assert (Hx : isnan x = false) by (inversion Hnan; assumption).
  apply (min_element_from_spec l [x] 0 x); simpl; auto.
  - intros y [<-|[]]. apply flt_le_refl. exact Hx.
  - intros j Hj. lia.
Qed.

(** X13: on a nonempty cost vector without NaN, [min_element] returns an index
    in range whose cost is at most every cost and strictly below every cost
    before it (the first minimum). *)
Theorem min_element_first_minimum : forall l,
  l <> [] -> Forall (fun c => isnan c = false) l ->
  min_element l < length l /\
  (forall y, In y l -> flt_le (nth (min_element l) l NaN) y = true) /\
  (forall j, j < min_element l -> flt_lt (nth (min_element l) l NaN) (nth j l NaN) = true).
Proof. exact min_element_spec. Qed.

(** X13 witness: a tie resolved to the first position. *)
Lemma min_element_first_minimum_witness :
  [Fin 2; Fin 1; Fin 1] <> [] /\ Forall (fun c => isnan c = false) [Fin 2; Fin 1; Fin 1] /\
  min_element [Fin 2; Fin 1; Fin 1] < length [Fin 2; Fin 1; Fin 1] /\
  (forall y, In y [Fin 2; Fin 1; Fin 1] -> flt_le (nth (min_element [Fin 2; Fin 1; Fin 1]) [Fin 2; Fin 1; Fin 1] NaN) y = true) /\
  (forall j, j < min_element [Fin 2; Fin 1; Fin 1] ->
     flt_lt (nth (min_element [Fin 2; Fin 1; Fin 1]) [Fin 2; Fin 1; Fin 1] NaN) (nth j [Fin 2; Fin 1; Fin 1] NaN) = true).
Proof.
  assert (Hne : [Fin 2; Fin 1; Fin 1] <> []) by discriminate.
  assert (Hn : Forall (fun c => isnan c = false) [Fin 2; Fin 1; Fin 1]) by (repeat constructor).
  split; [exact Hne|]. split; [exact Hn|].
  exact (min_element_first_minimum [Fin 2; Fin 1; Fin 1] Hne Hn).
Defined.

(** X14: when the initial population has [NP] candidates and no final cost is
    NaN, the objective of the returned candidate is at most every final cost. *)
Theorem returned_candidate_is_best : forall init f tv hc hq fuel sched p g x,
  length (fst (init (lower_bounds p) (upper_bounds p) (NP p) g)) = NP p ->
  let r := differential_evolution init f tv hc hq fuel sched p g in
  outcome r = Returned x ->
  Forall (fun c => isnan c = false) (cost (final_state r)) ->
  forall c, In c (cost (final_state r)) -> flt_le (f x) c = true.
Proof.
  intros init f tv hc hq fuel sched p g x Hlen. cbv zeta. intros Ho Hnan c Hc.
  destruct (run_costs_agree init f tv hc hq fuel sched p g Hlen) as [_ H].
  destruct (H x Ho) as [k [Hk [_ [_ Hck]]]].
  assert (Hne : cost (final_state (differential_evolution init f tv hc hq fuel sched p g)) <> [])
    by (intros E; rewrite E in Hc; contradiction).
  destruct (min_element_spec _ Hne Hnan) as [_ [Hle _]].
  specialize (Hle c Hc). rewrite <- Hk in Hle.
  rewrite (nth_error_nth _ _ NaN Hck) in Hle. exact Hle.
Qed.

(** X14 witness: the race setting, worker 0 first. *)
Lemma returned_candidate_is_best_witness :
  length (fst (random_initial_population (lower_bounds (params_1d 1 None)) (upper_bounds (params_1d 1 None)) (NP (params_1d 1 None)) (replay race_stream))) = NP (params_1d 1 None) /\
  outcome (differential_evolution random_initial_population square (Fin (1 # 2)) false false 10 worker0_first (params_1d 1 None) (replay race_stream)) = Returned [Fin (1 # 2)] /\
  Forall (fun c => isnan c = false) (cost (final_state (differential_evolution random_initial_population square (Fin (1 # 2)) false false 10 worker0_first (params_1d 1 None) (replay race_stream)))) /\
  (forall c, In c (cost (final_state (differential_evolution random_initial_population square (Fin (1 # 2)) false false 10 worker0_first (params_1d 1 None) (replay race_stream)))) -> flt_le (square [Fin (1 # 2)]) c = true).
Proof.
  assert (H : length (fst (random_initial_population (lower_bounds (params_1d 1 None)) (upper_bounds (params_1d 1 None)) (NP (params_1d 1 None)) (replay race_stream))) = NP (params_1d 1 None)) by (vm_compute; reflexivity).
  assert (Ho : outcome (differential_evolution random_initial_population square (Fin (1 # 2)) false false 10 worker0_first (params_1d 1 None) (replay race_stream)) = Returned [Fin (1 # 2)]) by (vm_compute; reflexivity).
  assert (Hn : Forall (fun c => isnan c = false) (cost (final_state (differential_evolution random_initial_population square (Fin (1 # 2)) false false 10 worker0_first (params_1d 1 None) (replay race_stream)))))
    by (vm_compute; repeat constructor).
  split; [exact H|]. split; [exact Ho|]. split; [exact Hn|].
  exact (returned_candidate_is_best random_initial_population square (Fin (1 # 2)) false false 10
           worker0_first (params_1d 1 None) (replay race_stream) [Fin (1 # 2)] H Ho Hn).
Defined.

(** ** Parameter validation *)

(** X15: the parameters are accepted exactly when the bounds are valid, [NP >=
    4], the mutation factor is a finite value strictly between 0 and 1,
    [max_generations >= 1], an initial guess (if any) passes its check, and
    there is at least one thread. *)
Theorem parameters_accepted_iff : forall p,
  validate_differential_evolution_parameters p = None <->
  validate_bounds (lower_bounds p) (upper_bounds p) = None /\
  4 <= NP p /\
  (exists q, mutation_factor p = Fin q /\ (0 < q)%Q /\ (q < 1)%Q) /\
  1 <= max_generations p /\
  (forall x, initial_guess p = Some x ->
             validate_initial_guess x (lower_bounds p) (upper_bounds p) = None) /\
  1 <= threads p.
Proof.
  intros p. unfold validate_differential_evolution_parameters. cbv zeta. split.
  - intros H.
    destruct (validate_bounds _ _) eqn:Hb; [discriminate|].
    destruct (Nat.ltb (NP p) 4) eqn:Hn; [discriminate|]. apply Nat.ltb_ge in Hn.
    destruct (isnan (mutation_factor p) || flt_le (Fin 1) (mutation_factor p)
              || flt_le (mutation_factor p) (Fin 0)) eqn:HF; [discriminate|].
    destruct (Nat.ltb (max_generations p) 1) eqn:Hg; [discriminate|]. apply Nat.ltb_ge in Hg.
    destruct (initial_guess p) as [x0|] eqn:Hi.
    + destruct (validate_initial_guess x0 _ _) eqn:Hx; [discriminate|].
      destruct (Nat.eqb (threads p) 0) eqn:Ht; [discriminate|]. apply Nat.eqb_neq in Ht.
      split; [reflexivity|]. split; [exact Hn|]. split.
      * destruct (mutation_factor p) as [| | |q]; try discriminate. exists q.
        simpl in HF. apply orb_false_iff in HF as [HF1 HF2].
        rewrite negb_false_iff, Qltb_true in HF1, HF2. auto.
      * split; [exact Hg|]. split; [intros x E; injection E as <-; exact Hx | lia].
    + destruct (Nat.eqb (threads p) 0) eqn:Ht; [discriminate|]. apply Nat.eqb_neq in Ht.
      split; [reflexivity|]. split; [exact Hn|]. split.
      * destruct (mutation_factor p) as [| | |q]; try discriminate. exists q.
        simpl in HF. apply orb_false_iff in HF as [HF1 HF2].
        rewrite negb_false_iff, Qltb_true in HF1, HF2. auto.
      * split; [exact Hg|]. split; [discriminate | lia].
  - intros [Hb [Hn [[q [HF [Hq0 Hq1]]] [Hg [Hi Ht]]]]].
    rewrite Hb. rewrite (proj2 (Nat.ltb_ge _ _) Hn). rewrite HF. simpl.
    assert (E1 : Qltb q 1 = true) by (apply Qltb_true; exact Hq1).
    assert (E2 : Qltb 0 q = true) by (apply Qltb_true; exact Hq0).
    rewrite E1, E2. simpl. rewrite (proj2 (Nat.ltb_ge _ _) Hg).
    destruct (initial_guess p) as [x0|]; [rewrite (Hi x0 eq_refl)|];
      destruct (threads p) as [|t]; [lia| reflexivity | lia | reflexivity].
Qed.


(** ** Where the final candidates come from *)

Lemma in_replace_nth : forall A (l : list A) i y x, In x (replace_nth i y l) -> In x l \/ x = y.
Proof.
  intros A l. induction l as [|z l IH]; intros i y x H; [destruct i; contradiction|].
  destruct i; simpl in H; destruct H as [H|H]; auto.
  - left. right. exact H.
  - left. left. exact H.
  - destruct (IH i y x H); [left; right|right]; assumption.
Qed.


Lemma from_start_or_trials_mono : forall pop0 th th' st,
  incl th th' -> from_start_or_trials pop0 th st -> from_start_or_trials pop0 th' st.
Proof.
  intros pop0 th th' st Hi H. unfold from_start_or_trials in *.
  eapply Forall_impl; [|exact H]. intros x [Hx|[ts [Hts Hx]]]; [left; exact Hx|].
  right. exists ts. split; [apply Hi; exact Hts | exact Hx].
Qed.

Lemma trial_phase_from_trials : forall f tv hc hq sched p generation trials st pop0 th,
  length trials = NP p -> In trials th -> from_start_or_trials pop0 th st ->
  from_start_or_trials pop0 th (trial_phase f tv hc hq sched p generation trials st).
Proof.
  intros f tv hc hq sched p generation trials st pop0 th Hl Hin H. unfold trial_phase.
  apply (phase_preserves_in _ (from_start_or_trials pop0 th)); [| |exact H].
  - intros i st' Hi Hs. apply in_worker_lists_lt in Hi.
    destruct (trial_iteration_shape f tv hc hq trials i st') as [[E|E] _];
      unfold from_start_or_trials; rewrite E; [exact Hs|].
    apply Forall_forall. intros x Hx. apply in_replace_nth in Hx as [Hx|Hx].
    + unfold from_start_or_trials in Hs. rewrite Forall_forall in Hs. apply Hs, Hx.
    + subst x. right. exists trials. split; [exact Hin|]. apply nth_In. lia.
  - intros st' Hs. exact Hs.
Qed.

Lemma generation_loop_from_trials :
  forall f tv hc hq fuel sched p n generation st g th ch pop0,
  from_start_or_trials pop0 th st ->
  let r := generation_loop f tv hc hq fuel sched p n generation st g th ch in
  from_start_or_trials pop0 (snd (fst r)) (snd (fst (fst r))).
Proof.
  intros f tv hc hq fuel sched p n. induction n as [|n IH];
    intros generation st g th ch pop0 H; simpl; [exact H|].
  destruct (hc && cancelled st); [exact H|]. destruct (target_attained st); [exact H|].
  destruct (trial_vectors p (population st) fuel g) as [[trials g']|] eqn:E; [|exact H].
  apply IH. apply trial_phase_from_trials.
  - unfold trial_vectors in E. apply make_trials_shape in E as [E _]. rewrite E. apply length_seq.
  - apply in_or_app. right. left. reflexivity.
  - apply (from_start_or_trials_mono _ th); [|exact H]. intros ts Hts. apply in_or_app. left. exact Hts.
Qed.

(** X17: every candidate of the final population is a candidate of the initial
    population or a trial vector of some generation that ran. *)
Theorem final_candidates_were_evaluated : forall init f tv hc hq fuel sched p g x,
  let r := differential_evolution init f tv hc hq fuel sched p g in
  In x (population (final_state r)) ->
  In x (population (fst (initial_state init p g))) \/
  exists ts, In ts (trial_history r) /\ In x ts.
Proof.
  intros init f tv hc hq fuel sched p g x. cbv zeta. unfold differential_evolution.
  destruct (validate_differential_evolution_parameters p); [simpl; contradiction|].
  destruct (initial_state init p g) as [st0 g1] eqn:E0. simpl.
  assert (H1 : from_start_or_trials (population st0) [] (initial_phase f tv hq sched p st0)).
  { unfold initial_phase. apply (phase_preserves _ (from_start_or_trials (population st0) [])).
    - intros i st' Hs. destruct (initial_iteration_shape f tv hq i st') as [E _].
      unfold from_start_or_trials. rewrite E. exact Hs.
    - intros st' Hs. exact Hs.
    - unfold from_start_or_trials. apply Forall_forall. intros y Hy. left. exact Hy. }
  pose proof (generation_loop_from_trials f tv hc hq fuel sched p (max_generations p) 0
                (initial_phase f tv hq sched p st0) g1 [] [cost (initial_phase f tv hq sched p st0)]
                (population st0) H1) as H.
  cbv zeta in H.
  destruct (generation_loop _ _ _ _ _ _ _ _ _ _ _ _ _) as [[[d st] th] ch]. simpl in *.
  intros Hx. unfold from_start_or_trials in H. rewrite Forall_forall in H. apply H, Hx.
Qed.

(** X17 witness: the returned candidate of the race setting. *)
Lemma final_candidates_were_evaluated_witness :
  In [Fin (1 # 2)] (population (final_state (differential_evolution random_initial_population square (Fin (1 # 2)) false false 10 worker0_first (params_1d 1 None) (replay race_stream)))) /\
  (In [Fin (1 # 2)] (population (fst (initial_state random_initial_population (params_1d 1 None) (replay race_stream)))) \/
   exists ts, In ts (trial_history (differential_evolution random_initial_population square (Fin (1 # 2)) false false 10 worker0_first (params_1d 1 None) (replay race_stream))) /\ In [Fin (1 # 2)] ts).
Proof.
  assert (H : In [Fin (1 # 2)] (population (final_state (differential_evolution random_initial_population square (Fin (1 # 2)) false false 10 worker0_first (params_1d 1 None) (replay race_stream))))) by (vm_compute; auto).
  split; [exact H|].
  exact (final_candidates_were_evaluated random_initial_population square (Fin (1 # 2)) false false
           10 worker0_first (params_1d 1 None) (replay race_stream) [Fin (1 # 2)] H).
Defined.

(** ** The initial guess *)

Lemma generation_loop_history_prefix :
  forall f tv hc hq fuel sched p n generation st g th ch,
  exists rest, snd (generation_loop f tv hc hq fuel sched p n generation st g th ch) = ch ++ rest.
Proof.
  intros f tv hc hq fuel sched p n. induction n as [|n IH];
    intros generation st g th ch; simpl; [exists []; rewrite app_nil_r; reflexivity|].
  destruct (hc && cancelled st); [exists []; rewrite app_nil_r; reflexivity|].
  destruct (target_attained st); [exists []; rewrite app_nil_r; reflexivity|].
  destruct (trial_vectors p (population st) fuel g) as [[trials g']|];
    [|exists []; rewrite app_nil_r; reflexivity].
  match goal with |- exists rest, snd (generation_loop _ _ _ _ _ _ _ _ _ ?st' _ _ ?ch') = _ =>
    destruct (IH (S generation) st' g' (th ++ [trials]) ch') as [rest Hr] end.
  rewrite Hr. exists ([cost (trial_phase f tv hc hq sched p generation trials st)] ++ rest).
  rewrite <- app_assoc. reflexivity.
Qed.

(** X18: with valid parameters, an initial guess and an initial population of
    [NP] candidates, the guess is placed in slot 0 and the first recorded cost
    vector holds its objective in slot 0. *)
Theorem initial_guess_scored_first : forall init f tv hc hq fuel sched p g x0,
  validate_differential_evolution_parameters p = None -> initial_guess p = Some x0 ->
  length (fst (init (lower_bounds p) (upper_bounds p) (NP p) g)) = NP p ->
  let r := differential_evolution init f tv hc hq fuel sched p g in
  nth_error (population (fst (initial_state init p g))) 0 = Some x0 /\
  nth_error (hd [] (cost_history r)) 0 = Some (f x0).
Proof.
  intros init f tv hc hq fuel sched p g x0 Hv Hg Hlen. cbv zeta.
  pose proof (valid_NP p Hv) as HNP. pose proof (valid_threads p Hv) as Ht.
  pose proof (initial_state_shape init p g) as [Hp0 [Hc0 _]]. rewrite Hg in Hp0.
  assert (H0 : nth_error (population (fst (initial_state init p g))) 0 = Some x0).
  { rewrite Hp0. destruct (fst (init (lower_bounds p) (upper_bounds p) (NP p) g)) as [|y l];
      [simpl in Hlen; lia | reflexivity]. }
  split; [exact H0|].
  unfold differential_evolution. rewrite Hv.
  destruct (initial_state init p g) as [st0 g1]. cbn [fst] in H0, Hc0.
  destruct (generation_loop_history_prefix f tv hc hq fuel sched p (max_generations p) 0
              (initial_phase f tv hq sched p st0) g1 [] [cost (initial_phase f tv hq sched p st0)])
    as [rest Hr].
  destruct (generation_loop _ _ _ _ _ _ _ _ _ _ _ _ _) as [[[d st] th] ch]. cbn [snd] in Hr. subst ch.
  cbn [hd app cost_history]. pose proof (initial_phase_slots f tv hq sched p st0 0) as Hs.
  destruct (in_dec Nat.eq_dec 0 (concat (worker_lists (NP p) (threads p)))) as [_|Hn];
    [|destruct Hn; apply in_worker_lists; lia].
  unfold slot, initial_slot_update in Hs. rewrite H0, Hc0 in Hs.
  destruct (NP p) as [|n]; [lia|]. simpl in Hs. injection Hs as Hs _. exact Hs.
Qed.

(** X18 witness: the race setting with the initial guess 3. *)
Lemma initial_guess_scored_first_witness :
  validate_differential_evolution_parameters (params_1d 1 (Some [Fin 3])) = None /\
  initial_guess (params_1d 1 (Some [Fin 3])) = Some [Fin 3] /\
  length (fst (random_initial_population (lower_bounds (params_1d 1 (Some [Fin 3]))) (upper_bounds (params_1d 1 (Some [Fin 3]))) (NP (params_1d 1 (Some [Fin 3]))) (replay race_stream))) = NP (params_1d 1 (Some [Fin 3])) /\
  nth_error (population (fst (initial_state random_initial_population (params_1d 1 (Some [Fin 3])) (replay race_stream)))) 0 = Some [Fin 3] /\
  nth_error (hd [] (cost_history (differential_evolution random_initial_population square NaN false false 10 worker0_first (params_1d 1 (Some [Fin 3])) (replay race_stream)))) 0 = Some (square [Fin 3]).
Proof.
  assert (Hv : validate_differential_evolution_parameters (params_1d 1 (Some [Fin 3])) = None) by (vm_compute; reflexivity).
  assert (H : length (fst (random_initial_population (lower_bounds (params_1d 1 (Some [Fin 3]))) (upper_bounds (params_1d 1 (Some [Fin 3]))) (NP (params_1d 1 (Some [Fin 3]))) (replay race_stream))) = NP (params_1d 1 (Some [Fin 3]))) by (vm_compute; reflexivity).
  split; [exact Hv|]. split; [reflexivity|]. split; [exact H|].
  exact (initial_guess_scored_first random_initial_population square NaN false false 10
           worker0_first (params_1d 1 (Some [Fin 3])) (replay race_stream) [Fin 3] Hv eq_refl H).
Defined.
